(** * Polynote frontend: client backups and the notebook message dispatcher

    A shallow embedding of
    [polynote-frontend/polynote/ui/component/client_backup.ts]
    (classes [ClientBackup], [Backups], [Backup]) and of the notebook
    dispatcher that follows it in the same source file
    ([NotebookMessageDispatcher.dispatch] and the [UIAction] classes).

    Conventions of the embedding
    - JavaScript numbers that hold counters, ids and millisecond
      timestamps are integers far below 2^53; they are modelled as [Z].
    - A JavaScript object used as a map ([Record<number, Backup[]>], the
      key/value store of idb-keyval) is a [gmap].
    - A JavaScript array or object whose identity is observed by [===]
      carries an address ([Obj]); its contents are carried with it.
    - [console.log] calls have no effect on any value and are left out. *)

From stdpp Require Import base gmap list strings.
From Stdlib Require Import ZArith.

Local Open Scope Z_scope.

(** ** Payload types declared in modules that are not part of this file

    [data/data], [data/result] and [data/content_edit] declare the payload
    classes the two source files only pass around. They are taken as
    parameters. *)
Class DataTypes := {
  CellMetadata : Type;
  CellComment : Type;
  CellResult : Type;
  Output : Type;
  NotebookConfig : Type;
  ContentEdit : Type;
  PosRange : Type;
  CompletionCandidate : Type;
}.

(** ** Object identity *)

(** An address names one allocation: [epoch] counts allocation events (a
    [new], an array literal, an [Array.map], one structured clone read from
    the store) and [slot] tells the objects of one cloned value apart. *)
Inductive Slot :=
  | Root
  | CellsOf (day : Z) (i : nat)
  | ConfigOf (day : Z) (i : nat)
  | UpdatesOf (day : Z) (i : nat).

Record Addr := mkAddr { epoch : nat; slot : Slot }.

#[global] Instance Slot_eq_dec : EqDecision Slot.
Proof. solve_decision. Defined.

#[global] Instance Addr_eq_dec : EqDecision Addr.
Proof. solve_decision. Defined.

(** A heap object: where it lives and what it holds. *)
Record Obj (A : Type) := mkObj { addr : Addr; val : A }.
Arguments mkObj {A} _ _.
Arguments addr {A} _.
Arguments val {A} _.

(** [a === b] on two objects compares addresses. *)
Definition same_obj {A} (a b : Obj A) : bool := bool_decide (addr a = addr b).

(** [a === b] on two possibly undefined objects. *)
Definition same_opt_obj {A} (a b : option (Obj A)) : bool :=
  match a, b with
  | None, None => true
  | Some x, Some y => same_obj x y
  | _, _ => false
  end.

(** ** data/data: NotebookCell *)
Module NotebookCell.
Section NotebookCell.
Context `{DataTypes}.

(** Modelled from the spec: the class [NotebookCell] of [data/data], whose
    constructor the source calls as
    [new NotebookCell(id, language, content, results, metadata, comments)];
    [comments] is a mapping of comment id to comment and is empty when the
    argument is left out. *)
Record t := mk {
  id : Z;
  language : string;
  content : string;
  results : list CellResult;
  metadata : CellMetadata;
  comments : gmap string CellComment;
}.
End NotebookCell.
End NotebookCell.

(** ** data/messages *)
Module messages.
Section messages.
Context `{DataTypes}.

Inductive StartKernelLevel := NoRestart | Kill.

(** Modelled from the spec: the message classes of [data/messages], with the
    constructor arguments the dispatcher passes, in its order. *)
Inductive Message :=
  | StartKernel (level : StartKernelLevel)
  | CreateComment (globalVersion localVersion cellId : Z) (comment : CellComment)
  | UpdateComment (globalVersion localVersion cellId : Z) (commentId : string)
      (range : PosRange) (content : string)
  | DeleteComment (globalVersion localVersion cellId : Z) (commentId : string)
  | CurrentSelection (cellId : Z) (range : PosRange)
  | SetCellOutput (globalVersion localVersion cellId : Z) (output : Output)
  | SetCellLanguage (globalVersion localVersion cellId : Z) (language : string)
  | InsertCell (globalVersion localVersion : Z) (cell : NotebookCell.t) (prev : Z)
  | UpdateCell (globalVersion localVersion cellId : Z) (edits : list ContentEdit)
      (metadata : option CellMetadata)
  | DeleteCell (globalVersion localVersion cellId : Z)
  | UpdateConfig (globalVersion localVersion : Z) (config : NotebookConfig)
  | CompletionsAt (cellId offset : Z) (completions : list CompletionCandidate)
  | ParametersAt (cellId offset : Z)
  | NotebookVersion (path : string) (version : Z)
  | RunCell (cellIds : list Z)
  | CancelTasks (path : string)
  | ClearOutput.

(** [NotebookUpdate] is the common superclass of the versioned messages. *)
Definition NotebookUpdate := Message.

(** The [localVersion] a versioned message carries. *)
Definition localVersionOf (m : Message) : option Z :=
  match m with
  | CreateComment _ lv _ _ | UpdateComment _ lv _ _ _ _ | DeleteComment _ lv _ _
  | SetCellOutput _ lv _ _ | SetCellLanguage _ lv _ _ | InsertCell _ lv _ _
  | UpdateCell _ lv _ _ _ | DeleteCell _ lv _ | UpdateConfig _ lv _ => Some lv
  | _ => None
  end.
End messages.
End messages.

(** ** client_backup.ts *)

Definition BACKUPS_PER_NOTEBOOK : nat := 100.
Definition BACKUPS_PER_DAY : nat := 10.

(** The clock one call observes: [now] is [Date.now()] and [today] is
    [todayTs()], local midnight of the current day. One call reads the same
    day throughout (it does not run across midnight). *)
Record Clock := { now : Z; today : Z }.

Definition todayTs (clk : Clock) : Z := today clk.

(** [Math.min(...ks)] and [Math.max(...ks)]; [None] stands for the
    infinities they return on no argument, which are keys of no bucket. *)
Definition math_min (ks : list Z) : option Z :=
  match ks with
  | [] => None
  | k :: ks' => Some (foldr Z.min k ks')
  end.

Definition math_max (ks : list Z) : option Z :=
  match ks with
  | [] => None
  | k :: ks' => Some (foldr Z.max k ks')
  end.

(** [Object.keys(o).map(i => parseInt(i))]: day timestamps are integers
    that print and parse back to themselves. *)
Definition object_keys {A} (o : gmap Z A) : list Z := (map_to_list o).*1.

(** Number of backups in a day-bucketed record, over all days. *)
Definition countBackups {A} (buckets : gmap Z (list A)) : nat :=
  map_fold (λ _ bucket acc, (length bucket + acc)%nat) 0%nat buckets.

(** An entry of a backup's update log, [{ts, upd}]. *)
Definition UpdateEntry `{DataTypes} : Type := (Z * messages.NotebookUpdate)%type.

(** The interfaces [IBackup] and [IBackups]: what the store hands out and
    takes, arrays and objects with their identity. *)
Module IBackup.
Section IBackup.
Context `{DataTypes}.
Record t := mk {
  path : string;
  cells : Obj (list NotebookCell.t);
  config : option (Obj NotebookConfig);
  ts : Z;
  updates : Obj (list UpdateEntry);
}.
End IBackup.
End IBackup.

Module Backup.
Section Backup.
Context `{DataTypes}.

Record t := mk {
  path : string;
  cells : Obj (list NotebookCell.t);
  config : option (Obj NotebookConfig);
  ts : Z;
  updates : Obj (list UpdateEntry);
}.

(** [this.updates.push({ts, upd})]: the array is changed in place, it keeps
    its address. *)
Definition addUpdate (clk : Clock) (upd : messages.NotebookUpdate) (self : t) : t :=
  let ts := now clk in
  {| path := path self; cells := cells self; config := config self; ts := Backup.ts self;
     updates := mkObj (addr (updates self)) (val (updates self) ++ [(ts, upd)]) |}.

Definition fromI (iBackup : IBackup.t) : t :=
  mk (IBackup.path iBackup) (IBackup.cells iBackup) (IBackup.config iBackup)
     (IBackup.ts iBackup) (IBackup.updates iBackup).

(** A [Backup] seen through the interface it implements. *)
Definition asI (self : t) : IBackup.t :=
  IBackup.mk (path self) (cells self) (config self) (ts self) (updates self).

Definition equals (self backup : t) : bool :=
  bool_decide (path self = path backup)
  && same_obj (cells self) (cells backup)
  && same_opt_obj (config self) (config backup)
  && same_obj (updates self) (updates backup).
End Backup.
End Backup.

Module IBackups.
Section IBackups.
Context `{DataTypes}.
Record t := mk {
  path : string;
  backups : gmap Z (list IBackup.t);
}.
End IBackups.
End IBackups.

Module Backups.
Section Backups.
Context `{DataTypes}.

Record t := mk {
  path : string;
  backups : gmap Z (list Backup.t);
}.

(** [new Backups(path)] *)
Definition new (path : string) : t := mk path ∅.

(** The first statement of [addBackup]: over the total limit, the bucket of
    the oldest day goes. *)
Definition dropOldestDay (bs : gmap Z (list Backup.t)) : gmap Z (list Backup.t) :=
  if decide (BACKUPS_PER_NOTEBOOK < size bs)%nat then
    match math_min (object_keys bs) with
    | Some oldestDay => delete oldestDay bs
    | None => bs
    end
  else bs.

(** The rest of [addBackup]: today's bucket is created, grown, or shifted. *)
Definition pushToday (clk : Clock) (backup : Backup.t)
    (bs : gmap Z (list Backup.t)) : gmap Z (list Backup.t) :=
  match bs !! todayTs clk with
  | None => <[todayTs clk := [backup]]> bs
  | Some todayBackups =>
      if decide (length todayBackups < BACKUPS_PER_DAY)%nat
      then <[todayTs clk := todayBackups ++ [backup]]> bs
      else <[todayTs clk := tail todayBackups ++ [backup]]> bs
  end.

Definition addBackup (clk : Clock) (backup : Backup.t) (self : t) : t :=
  mk (path self) (pushToday clk backup (dropOldestDay (backups self))).

(** The day whose bucket [latestBackup] reads: today's when it exists, the
    newest one otherwise. *)
Definition latestDay (clk : Clock) (self : t) : option Z :=
  match backups self !! todayTs clk with
  | Some _ => Some (todayTs clk)
  | None => math_max (object_keys (backups self))
  end.

(** [a[a.length - 1]], undefined on the empty array. *)
Definition latestBackup (clk : Clock) (self : t) : option Backup.t :=
  match backups self !! todayTs clk with
  | Some todayBackups => last todayBackups
  | None =>
      match math_max (object_keys (backups self)) with
      | Some newestDay =>
          match backups self !! newestDay with
          | Some newestBackups => last newestBackups
          | None => None
          end
      | None => None
      end
  end.

(** [latest.addUpdate(upd)] changes the object [latestBackup] returned,
    which is the last element of the bucket of [latestDay]; every backup
    object sits in exactly one bucket, so the change shows there and
    nowhere else. The error of the [else] branch is the [inl]. *)
Definition addUpdate (clk : Clock) (upd : messages.NotebookUpdate) (self : t)
    : string + t :=
  match latestBackup clk self, latestDay clk self with
  | Some latest, Some day =>
      inr (mk (path self)
             (alter (λ bucket, <[pred (length bucket) := Backup.addUpdate clk upd latest]> bucket)
                day (backups self)))
  | _, _ => inl ("No backups found for " +:+ path self +:+ "!")
  end.

Definition fromI (iBackups : IBackups.t) : t :=
  mk (IBackups.path iBackups) (fmap (M := gmap Z) (fmap Backup.fromI) (IBackups.backups iBackups)).

Definition toI (self : t) : IBackups.t :=
  IBackups.mk (path self) (fmap (M := gmap Z) (fmap Backup.asI) (backups self)).
End Backups.
End Backups.

(** ** The key/value store (idb-keyval)

    The store keeps structured clones: plain values with no identity. A
    clone read back is made of newly allocated arrays and objects. *)
Module Stored.
Section Stored.
Context `{DataTypes}.

Record Backup := mkBackup {
  path : string;
  cells : list NotebookCell.t;
  config : option NotebookConfig;
  ts : Z;
  updates : list UpdateEntry;
}.

Record Backups := mkBackups {
  bpath : string;
  backups : gmap Z (list Backup);
}.

Definition freezeBackup (b : IBackup.t) : Backup :=
  mkBackup (IBackup.path b) (val (IBackup.cells b)) (val <$> IBackup.config b)
    (IBackup.ts b) (val (IBackup.updates b)).

(** The clone written by [set]. *)
Definition freeze (i : IBackups.t) : Backups :=
  mkBackups (IBackups.path i) (fmap (M := gmap Z) (fmap freezeBackup) (IBackups.backups i)).

Definition reviveBackup (e : nat) (day : Z) (i : nat) (b : Backup) : IBackup.t :=
  IBackup.mk (path b)
    (mkObj {| epoch := e; slot := CellsOf day i |} (cells b))
    (mkObj {| epoch := e; slot := ConfigOf day i |} <$> config b)
    (ts b)
    (mkObj {| epoch := e; slot := UpdatesOf day i |} (updates b)).

(** The clone handed out by [get], allocated in epoch [e]. *)
Definition revive (e : nat) (s : Backups) : IBackups.t :=
  IBackups.mk (bpath s)
    (map_imap (λ day bucket, Some (imap (reviveBackup e day) bucket)) (backups s)).
End Stored.
End Stored.

(** The browser state the backup code runs against: the store and the
    allocation counter. *)
Record World `{DataTypes} := mkWorld {
  idb : gmap string Stored.Backups;
  next_epoch : nat;
}.

(** A promise that has settled. *)
Inductive Settled (A : Type) :=
  | Resolved (a : A)
  | Rejected (err : string).
Arguments Resolved {A} _.
Arguments Rejected {A} _.

Definition Promise `{DataTypes} (A : Type) : Type := World → Settled A * World.

Section Promise.
Context `{DataTypes}.

Definition resolve {A} (a : A) : Promise A := λ w, (Resolved a, w).

(** [throw new Error(msg)] inside a [then] callback. *)
Definition throw {A} (msg : string) : Promise A := λ w, (Rejected msg, w).

(** [p.then(k)]; a rejection skips [k]. The [catch] handlers of the source
    log and throw the error again, which leaves the rejection as it is. *)
Definition andThen {A B} (p : Promise A) (k : A → Promise B) : Promise B :=
  λ w, match p w with
       | (Resolved a, w') => k a w'
       | (Rejected e, w') => (Rejected e, w')
       end.

(** A new array or object. *)
Definition alloc {A} (v : A) : Promise (Obj A) :=
  λ w, (Resolved (mkObj {| epoch := next_epoch w; slot := Root |} v),
        mkWorld _ (idb w) (S (next_epoch w))).

(** idb-keyval [get], [set], [keys] and [clear]. The store itself is taken
    to work: these never reject. *)
Definition get (key : string) : Promise (option IBackups.t) :=
  λ w, (Resolved (Stored.revive (next_epoch w) <$> idb w !! key),
        mkWorld _ (idb w) (S (next_epoch w))).

Definition set (key : string) (v : IBackups.t) : Promise unit :=
  λ w, (Resolved tt, mkWorld _ (<[key := Stored.freeze v]> (idb w)) (next_epoch w)).

Definition keys : Promise (list string) :=
  λ w, (Resolved (map_to_list (idb w)).*1, w).

Definition clear : Promise unit :=
  λ w, (Resolved tt, mkWorld _ ∅ (next_epoch w)).
End Promise.

Notation "'let*' x ':=' p 'in' k" := (andThen p (λ x, k))
  (at level 10, x pattern, p at level 100, k at level 200).

Module ClientBackup.
Section ClientBackup.
Context `{DataTypes}.

Definition clearCell (cell : NotebookCell.t) : NotebookCell.t :=
  NotebookCell.mk (NotebookCell.id cell) (NotebookCell.language cell)
    (NotebookCell.content cell) [] (NotebookCell.metadata cell)
    (NotebookCell.comments cell).

Definition addNb (clk : Clock) (path : string) (cells : list NotebookCell.t)
    (config : option (Obj NotebookConfig)) : Promise Backups.t :=
  let* clearedCells := alloc (map clearCell cells) in
  let* noUpdates := alloc [] in
  let backup := Backup.mk path clearedCells config (now clk) noUpdates in
  let* backupsObj := get path in
  let backups :=
    match backupsObj with
    | Some i => Backups.fromI i
    | None => Backups.new path
    end in
  if match Backups.latestBackup clk backups with
     | Some latest => Backup.equals latest backup
     | None => false
     end
  then resolve backups
  else
    let backups' := Backups.addBackup clk backup backups in
    let* _ := set path (Backups.toI backups') in
    resolve backups'.

Definition getBackups (path : string) : Promise IBackups.t :=
  let* iBackups := get path in
  match iBackups with
  | Some i => resolve i
  | None => throw ("No Backup found for " +:+ path)
  end.

(** [Promise.all] over the keys: every read must resolve. *)
Fixpoint collectBackups (ks : list string) (backups : gmap string IBackups.t)
    : Promise (gmap string IBackups.t) :=
  match ks with
  | [] => resolve backups
  | k :: ks' =>
      let* iBackup := getBackups k in
      collectBackups ks' (<[k := iBackup]> backups)
  end.

Definition allBackups : Promise (gmap string IBackups.t) :=
  let* ks := keys in
  collectBackups ks ∅.

Definition updateNb (clk : Clock) (path : string) (upd : messages.NotebookUpdate)
    : Promise Backups.t :=
  let* iBackups := get path in
  match iBackups with
  | Some i =>
      match Backups.addUpdate clk upd (Backups.fromI i) with
      | inr backups =>
          let* _ := set path (Backups.toI backups) in
          resolve backups
      | inl err => throw err
      end
  | None => throw ("Unable to find a current backup for notebook at " +:+ path)
  end.

Definition clearBackups : Promise (gmap string IBackups.t) :=
  let* backups := allBackups in
  let* _ := clear in
  resolve backups.
End ClientBackup.
End ClientBackup.

(** ** The notebook message dispatcher *)

(** [a[i]] for a JavaScript index, undefined outside the array. *)
Definition js_index {A} (l : list A) (i : Z) : option A :=
  if decide (0 ≤ i) then l !! Z.to_nat i else None.

Fixpoint findIndexFrom {A} (p : A → bool) (l : list A) (i : Z) : Z :=
  match l with
  | [] => -1
  | x :: l' => if p x then i else findIndexFrom p l' (i + 1)
  end.

(** [Array.prototype.findIndex]: -1 when no element passes. *)
Definition findIndex {A} (p : A → bool) (l : list A) : Z := findIndexFrom p l 0.

Module Dispatcher.
Section Dispatcher.
Context `{DataTypes}.

(** The [resolve] and [reject] closures an action carries are told apart
    by name; calling one is an effect of the dispatch. *)
Definition Callback := nat.

Record Pending := mkPending { resolve : Callback; reject : Callback }.

(** Modelled from the spec: the cell records of [state/notebook_state], the
    fields of a notebook cell and its transient fields. *)
Record CellState := mkCell {
  id : Z;
  language : string;
  content : string;
  metadata : CellMetadata;
  comments : gmap string CellComment;
  queued : option bool;
  results : list CellResult;
  error : option bool;
  selected : option bool;
  currentSelection : option PosRange;
  pendingEdits : list ContentEdit;
}.

(** Modelled from the spec: the class [EditBuffer] of
    [state/notebook_state], an ordered, append-only mapping from local
    version to message; [push] returns the buffer with the entry added at
    the end. *)
Definition EditBuffer : Type := list (Z * messages.Message).

Definition EditBuffer_push (buf : EditBuffer) (version : Z) (edit : messages.Message)
    : EditBuffer :=
  buf ++ [(version, edit)].

(** Modelled from the spec: the type [NotebookState] of
    [state/notebook_state]. *)
Record NotebookState := mkState {
  path : string;
  cells : list CellState;
  config : NotebookConfig;
  globalVersion : Z;
  localVersion : Z;
  editBuffer : EditBuffer;
  activeCell : option CellState;
  activeCompletion : option Pending;
  activeSignature : option Pending;
}.

(** [{...state, field: v}] *)
Definition with_cells (cs : list CellState) (s : NotebookState) : NotebookState :=
  mkState (path s) cs (config s) (globalVersion s) (localVersion s) (editBuffer s)
    (activeCell s) (activeCompletion s) (activeSignature s).
Definition with_localVersion (v : Z) (s : NotebookState) : NotebookState :=
  mkState (path s) (cells s) (config s) (globalVersion s) v (editBuffer s)
    (activeCell s) (activeCompletion s) (activeSignature s).
Definition with_editBuffer (b : EditBuffer) (s : NotebookState) : NotebookState :=
  mkState (path s) (cells s) (config s) (globalVersion s) (localVersion s) b
    (activeCell s) (activeCompletion s) (activeSignature s).
Definition with_activeCell (c : option CellState) (s : NotebookState) : NotebookState :=
  mkState (path s) (cells s) (config s) (globalVersion s) (localVersion s) (editBuffer s)
    c (activeCompletion s) (activeSignature s).
Definition with_activeCompletion (p : option Pending) (s : NotebookState) : NotebookState :=
  mkState (path s) (cells s) (config s) (globalVersion s) (localVersion s) (editBuffer s)
    (activeCell s) p (activeSignature s).
Definition with_activeSignature (p : option Pending) (s : NotebookState) : NotebookState :=
  mkState (path s) (cells s) (config s) (globalVersion s) (localVersion s) (editBuffer s)
    (activeCell s) (activeCompletion s) p.

(** [{...cell, field: v}] *)
Definition cell_with_language (l : string) (c : CellState) : CellState :=
  mkCell (id c) l (content c) (metadata c) (comments c) (queued c) (results c) (error c)
    (selected c) (currentSelection c) (pendingEdits c).
Definition cell_with_content_metadata (ct : string) (md : CellMetadata) (c : CellState)
    : CellState :=
  mkCell (id c) (language c) ct md (comments c) (queued c) (results c) (error c)
    (selected c) (currentSelection c) (pendingEdits c).
Definition cell_with_run (q : bool) (rs : list CellResult) (e : bool) (c : CellState)
    : CellState :=
  mkCell (id c) (language c) (content c) (metadata c) (comments c) (Some q) rs (Some e)
    (selected c) (currentSelection c) (pendingEdits c).
Definition cell_with_selected (b : bool) (c : CellState) : CellState :=
  mkCell (id c) (language c) (content c) (metadata c) (comments c) (queued c) (results c)
    (error c) (Some b) (currentSelection c) (pendingEdits c).
Definition cell_with_currentSelection (r : option PosRange) (c : CellState) : CellState :=
  mkCell (id c) (language c) (content c) (metadata c) (comments c) (queued c) (results c)
    (error c) (selected c) r (pendingEdits c).
Definition cell_with_pendingEdits (es : list ContentEdit) (c : CellState) : CellState :=
  mkCell (id c) (language c) (content c) (metadata c) (comments c) (queued c) (results c)
    (error c) (selected c) (currentSelection c) es.

(** What a dispatch does to the outside, in order. *)
Inductive Effect :=
  | Send (m : messages.Message)
  | SocketReconnect (onlyIfClosed : bool)
  | Call (cb : Callback).

(** A computation that has effects and yields a value. *)
Definition Eff (A : Type) : Type := (A * list Effect)%type.

Definition ret {A} (a : A) : Eff A := (a, []).
Definition bind {A B} (m : Eff A) (k : A → Eff B) : Eff B :=
  let (b, es) := k m.1 in (b, m.2 ++ es).
Definition socket_send (m : messages.Message) : Eff unit := (tt, [Send m]).
Definition socket_reconnect (onlyIfClosed : bool) : Eff unit :=
  (tt, [SocketReconnect onlyIfClosed]).
Definition call (cb : Callback) : Eff unit := (tt, [Call cb]).

(** Modelled from the spec: [StateHandler.updateState(f)] of
    [state/state_handler] replaces the state by [f(state)] in one step, and
    [getState()] reads it. *)
Definition updateState (f : NotebookState → Eff NotebookState) (s : NotebookState)
    : Eff NotebookState := f s.

Inductive KernelCommandName := start | kill.
Inductive Relative := above | below.

Inductive UIAction :=
  | KernelCommand (command : KernelCommandName)
  | Reconnect (onlyIfClosed : bool)
  | CreateComment (cellId : Z) (comment : CellComment)
  | UpdateComment (cellId : Z) (commentId : string) (range : PosRange) (content : string)
  | DeleteComment (cellId : Z) (commentId : string)
  | CreateCell (language content : string) (metadata : CellMetadata) (prev : Z)
  | UpdateCell (cellId : Z) (edits : list ContentEdit) (newContent : option string)
      (metadata : option CellMetadata)
  | DeleteCell (cellId : Z)
  | UpdateConfig (config : NotebookConfig)
  | LoadNotebook (path : string)
  | CreateNotebook (path : string) (content : option string)
  | RenameNotebook (oldPath newPath : string)
  | CopyNotebook (oldPath newPath : string)
  | DeleteNotebook (path : string)
  | SetCurrentSelection (cellId : Z) (range : PosRange)
  | SetCellOutput (cellId : Z) (output : Output)
  | SetCellLanguage (cellId : Z) (language : string)
  | RequestCompletions (cellId offset : Z) (resolve reject : Callback)
  | RequestSignature (cellId offset : Z) (resolve reject : Callback)
  | RequestNotebookVersion (version : Z)
  | RequestCellRun (cells : list Z)
  | RequestCancelTasks
  | RequestClearOutput
  | RequestNotebooksList
  | SetSelectedCell (selected : option Z) (relative : option Relative)
  | CurrentSelection (cellId : Z) (range : PosRange)
  | ClearCellEdits (cellId : Z)
  | DownloadNotebook
  | SetSelectedNotebook (path : option string)
  | ViewAbout (section : string).

Local Notation "m ;; k" := (bind m (λ _, k)) (at level 100, right associativity).

(** [cell.id === id], where [id] may be undefined. *)
Definition id_is (i : option Z) (cell : CellState) : bool :=
  match i with
  | Some n => bool_decide (id cell = n)
  | None => false
  end.

(** [cells.reduce((acc, cell) => acc > cell.id ? acc : cell.id, -1)] *)
Definition maxId (cs : list CellState) : Z :=
  foldl (λ acc cell, if decide (acc > id cell) then acc else id cell) (-1) cs.

(** The answer of the user to [window.confirm]. *)
Variable confirm : string → bool.

(** [NotebookMessageDispatcher.dispatch]: the branch of the first matching
    [when]; an action no [when] names changes nothing. (The observer the
    constructor puts on the socket status runs on connection events, not in
    [dispatch].) *)
Definition dispatch (action : UIAction) (s : NotebookState) : Eff NotebookState :=
  match action with
  | Reconnect onlyIfClosed =>
      socket_reconnect onlyIfClosed ;; ret s
  | KernelCommand command =>
      match command with
      | start => socket_send (messages.StartKernel messages.NoRestart) ;; ret s
      | kill =>
          if confirm "Kill running kernel? State will be lost."
          then socket_send (messages.StartKernel messages.Kill) ;; ret s
          else ret s
      end
  | CreateComment cellId comment =>
      let state := s in
      socket_send (messages.CreateComment (globalVersion state) (localVersion state)
                     cellId comment) ;;
      ret s
  | UpdateComment cellId commentId range content =>
      let state := s in
      socket_send (messages.UpdateComment (globalVersion state) (localVersion state)
                     cellId commentId range content) ;;
      ret s
  | DeleteComment cellId commentId =>
      let state := s in
      socket_send (messages.DeleteComment (globalVersion state) (localVersion state)
                     cellId commentId) ;;
      ret s
  | SetCurrentSelection cellId range =>
      socket_send (messages.CurrentSelection cellId range) ;; ret s
  | SetCellOutput cellId output =>
      let state := s in
      socket_send (messages.SetCellOutput (globalVersion state) (localVersion state)
                     cellId output) ;;
      ret s
  | SetCellLanguage cellId language =>
      updateState (λ state,
        socket_send (messages.SetCellLanguage (globalVersion state) (localVersion state)
                       cellId language) ;;
        ret (with_cells
               (map (λ cell, if bool_decide (id cell = cellId)
                             then cell_with_language language cell else cell)
                  (cells state))
               state)) s
  | CreateCell language content metadata prev =>
      updateState (λ state,
        let localVersion' := localVersion state + 1 in
        let maxId := maxId (cells state) in
        let cell := NotebookCell.mk (maxId + 1) language content [] metadata ∅ in
        let update := messages.InsertCell (globalVersion state) localVersion' cell prev in
        socket_send update ;;
        ret (with_editBuffer
               (EditBuffer_push (editBuffer state) (localVersion state) update)
               state)) s
  | UpdateCell cellId edits newContent metadata =>
      updateState (λ state,
        let localVersion' := localVersion state + 1 in
        let update :=
          messages.UpdateCell (globalVersion state) localVersion' cellId edits metadata in
        socket_send update ;;
        ret (with_cells
               (map (λ cell, if bool_decide (id cell = cellId)
                             then cell_with_content_metadata
                                    (default (Dispatcher.content cell) newContent)
                                    (default (Dispatcher.metadata cell) metadata) cell
                             else cell)
                  (cells state))
               (with_editBuffer
                  (EditBuffer_push (editBuffer state) (localVersion state) update)
                  state))) s
  | DeleteCell cellId =>
      updateState (λ state,
        let globalVersion0 := globalVersion state in
        let state := with_localVersion (localVersion state + 1) state in
        let update := messages.DeleteCell globalVersion0 (localVersion state) cellId in
        socket_send update ;;
        ret (with_editBuffer
               (EditBuffer_push (editBuffer state) (localVersion state) update)
               state)) s
  | UpdateConfig conf =>
      updateState (λ state,
        let globalVersion0 := globalVersion state in
        let state := with_localVersion (localVersion state + 1) state in
        let update := messages.UpdateConfig globalVersion0 (localVersion state) conf in
        socket_send update ;;
        ret (with_editBuffer
               (EditBuffer_push (editBuffer state) (localVersion state) update)
               state)) s
  | RequestCompletions cellId offset resolve reject =>
      socket_send (messages.CompletionsAt cellId offset []) ;;
      updateState (λ state,
        match activeCompletion state with
        | Some active => call (Dispatcher.reject active)
        | None => ret tt
        end ;;
        ret (with_activeCompletion (Some (mkPending resolve reject)) state)) s
  | RequestSignature cellId offset resolve reject =>
      socket_send (messages.ParametersAt cellId offset) ;;
      updateState (λ state,
        match activeSignature state with
        | Some active => call (Dispatcher.reject active)
        | None => ret tt
        end ;;
        ret (with_activeSignature (Some (mkPending resolve reject)) state)) s
  | RequestNotebookVersion version =>
      let state := s in
      socket_send (messages.NotebookVersion (path state) version) ;; ret s
  | RequestCellRun cellIds =>
      updateState (λ state,
        let cellIds :=
          if decide (length cellIds = 0%nat) then map id (cells state) else cellIds in
        socket_send (messages.RunCell cellIds) ;;
        ret (with_cells
               (map (λ cell, if bool_decide (id cell ∈ cellIds)
                             then cell_with_run true [] false cell else cell)
                  (cells state))
               state)) s
  | RequestCancelTasks =>
      let state := s in
      socket_send (messages.CancelTasks (path state)) ;; ret s
  | RequestClearOutput =>
      socket_send messages.ClearOutput ;; ret s
  | SetSelectedCell selected relative =>
      updateState (λ state,
        let id0 := selected in
        let id1 :=
          match relative with
          | Some above =>
              let anchorIdx := findIndex (id_is id0) (cells state) in
              id <$> js_index (cells state) (anchorIdx - 1)
          | Some below =>
              let anchorIdx := findIndex (id_is id0) (cells state) in
              id <$> js_index (cells state) (anchorIdx + 1)
          | None => id0
          end in
        let id2 :=
          match id1 with
          | Some i => Some i
          | None => if bool_decide (selected = Some (-1)) then Some 0 else selected
          end in
        ret (with_cells
               (map (λ cell, cell_with_selected (id_is id2 cell) cell) (cells state))
               (with_activeCell (List.find (id_is id2) (cells state)) state))) s
  | CurrentSelection cellId range =>
      socket_send (messages.CurrentSelection cellId range) ;;
      updateState (λ state,
        ret (with_cells
               (map (λ cell, cell_with_currentSelection
                               (if bool_decide (id cell = cellId) then Some range else None)
                               cell)
                  (cells state))
               state)) s
  | ClearCellEdits cellId =>
      updateState (λ state,
        ret (with_cells
               (map (λ cell, if bool_decide (id cell = cellId)
                             then cell_with_pendingEdits [] cell else cell)
                  (cells state))
               state)) s
  | DownloadNotebook => ret s
  | LoadNotebook _ | CreateNotebook _ _ | RenameNotebook _ _ | CopyNotebook _ _
  | DeleteNotebook _ | RequestNotebooksList | SetSelectedNotebook _ | ViewAbout _ =>
      ret s
  end.

(** A run of dispatches, the effects of all of them in order. *)
Fixpoint dispatchAll (actions : list UIAction) (s : NotebookState) : Eff NotebookState :=
  match actions with
  | [] => ret s
  | a :: rest => bind (dispatch a s) (dispatchAll rest)
  end.

(** The actions that edit notebook content: each goes out as a versioned
    update and is kept in the edit buffer. *)
Definition mutating (action : UIAction) : bool :=
  match action with
  | CreateCell _ _ _ _ | UpdateCell _ _ _ _ | DeleteCell _ | UpdateConfig _ => true
  | _ => false
  end.

(** The actions that only send a message. *)
Definition sendOnly (action : UIAction) : bool :=
  match action with
  | CreateComment _ _ | UpdateComment _ _ _ _ | DeleteComment _ _
  | SetCurrentSelection _ _ | SetCellOutput _ _ | RequestNotebookVersion _
  | RequestCancelTasks | RequestClearOutput => true
  | _ => false
  end.

(** The messages a list of effects sends. *)
Definition sent (es : list Effect) : list messages.Message :=
  omap (λ e, match e with Send m => Some m | _ => None end) es.
End Dispatcher.
End Dispatcher.

(** ** Concrete payloads and inputs *)

#[global] Instance plainTypes : DataTypes := {|
  CellMetadata := string;
  CellComment := string;
  CellResult := string;
  Output := string;
  NotebookConfig := string;
  ContentEdit := string;
  PosRange := (Z * Z)%type;
  CompletionCandidate := string;
|}.

Module Examples.
Import Dispatcher.

Definition cellWithId (i : Z) : CellState :=
  mkCell i "scala" "" "meta" ∅ None [] None None None [].

(** A notebook with the cells [[{id:0},{id:1}]], nothing sent yet. *)
Definition state01 : NotebookState :=
  mkState "nb" [cellWithId 0; cellWithId 1] "config" 0 0 [] None None None.

Definition alwaysConfirm : string → bool := λ _, true.

Definition createAfter0 : UIAction := CreateCell "scala" "" "meta" 0.

Definition commentOn0 : UIAction := CreateComment 0 "a comment".

Definition emptyWorld : World := mkWorld _ ∅ 0.

Definition oneCell : NotebookCell.t := NotebookCell.mk 0 "scala" "1 + 1" [] "meta" ∅.

(** The number of backups [allBackups()] reports for a path. *)
Definition reportedCount (path : string) (w : World) : option nat :=
  match (ClientBackup.allBackups w).1 with
  | Resolved all => (λ i, countBackups (IBackups.backups i)) <$> all !! path
  | Rejected _ => None
  end.

(** A backup of an empty notebook taken at [ts]. *)
Definition backupAt (ts : Z) : Backup.t :=
  Backup.mk "nb" (mkObj (mkAddr 0 Root) []) None ts (mkObj (mkAddr 1 Root) []).

Definition msPerDay : Z := 86400000.

(** Midnight of day [d], counted from the epoch. *)
Definition onDay (d : Z) : Clock := {| now := d * msPerDay; today := d * msPerDay |}.

(** One [addBackup] on each of the given days, in order. *)
Definition addOnDays (days : list Z) (b : Backups.t) : Backups.t :=
  foldl (λ acc d, Backups.addBackup (onDay d) (backupAt (d * msPerDay)) acc) b days.

Definition firstDays (n : nat) : list Z := Z.of_nat <$> seq 0 n.

(** Ten backups on day 0, then one on each of the days 1 to 100. *)
Definition crowded : Backups.t :=
  addOnDays (replicate 10 0 ++ (Z.of_nat <$> seq 1 100)) (Backups.new "nb").
End Examples.

(** ** Stores the backup interface can produce *)

(** Every day bucket holds a backup, and there is a bucket. *)
Definition nonempty_buckets {A} (m : gmap Z (list A)) : Prop :=
  ∀ d l, m !! d = Some l → l ≠ [].

Definition buckets_ok {A} (m : gmap Z (list A)) : Prop :=
  m ≠ ∅ ∧ nonempty_buckets m.

Definition store_ok `{DataTypes} (w : World) : Prop :=
  ∀ p s, idb w !! p = Some s → buckets_ok (Stored.backups s).

(** The browser states reached from an empty store through [ClientBackup]. *)
Inductive reachable `{DataTypes} : World → Prop :=
  | reachable_empty e : reachable (mkWorld _ ∅ e)
  | reachable_addNb w clk path cells config :
      reachable w → reachable (ClientBackup.addNb clk path cells config w).2
  | reachable_updateNb w clk path upd :
      reachable w → reachable (ClientBackup.updateNb clk path upd w).2
  | reachable_getBackups w path :
      reachable w → reachable (ClientBackup.getBackups path w).2
  | reachable_allBackups w :
      reachable w → reachable (ClientBackup.allBackups w).2
  | reachable_clearBackups w :
      reachable w → reachable (ClientBackup.clearBackups w).2.

Definition rejected {A} (r : Settled A) : Prop := ∃ err, r = Rejected err.

(** A backup object written to the store and read back in epoch [e]: the
    same contents at new addresses. *)
Definition relocate `{DataTypes} (e : nat) (day : Z) (i : nat) (b : Backup.t) : Backup.t :=
  Backup.fromI (Stored.reviveBackup e day i (Stored.freezeBackup (Backup.asI b))).

(** The backup [addNb] builds when it starts in epoch [e], and the backups
    object it gets from a read in epoch [e]. *)
Definition builtBackup `{DataTypes} (clk : Clock) (path : string)
    (cells : list NotebookCell.t) (config : option (Obj NotebookConfig)) (e : nat)
    : Backup.t :=
  Backup.mk path (mkObj (mkAddr e Root) (map ClientBackup.clearCell cells)) config
    (now clk) (mkObj (mkAddr (S e) Root) []).

Definition loadedBackups `{DataTypes} (path : string) (w : World) (e : nat) : Backups.t :=
  match idb w !! path with
  | Some s => Backups.fromI (Stored.revive e s)
  | None => Backups.new path
  end.

(** ** The helper methods of the notebook dispatcher *)
Module Helpers.
Section Helpers.
Context `{DataTypes}.
Import Dispatcher.

Variable confirm : string → bool.

(** The [anchor] argument of [insertCell], [{id, language, metadata}]. *)
Record Anchor := mkAnchor {
  anchor_id : Z;
  anchor_language : string;
  anchor_metadata : CellMetadata;
}.

(** Reading a property of [undefined] throws a [TypeError]. *)
Inductive Thrown := TypeError.

(** [insertCell(direction, anchor?)]. [currentCell.id] and [maybePrev.id]
    throw when the cell read from the array is undefined; nothing has been
    sent by then. *)
Definition insertCell (direction : Relative) (anchor : option Anchor) (s : NotebookState)
    : Thrown + Eff NotebookState :=
  let currentState := s in
  let currentCell := activeCell currentState in
  let anchor' : Thrown + Anchor :=
    match anchor with
    | Some a => inr a
    | None =>
        let currentCell :=
          match currentCell with
          | Some c => Some c
          | None =>
              match direction with
              | above => js_index (cells currentState) 0
              | below =>
                  js_index (cells currentState)
                    (Z.of_nat (length (cells currentState)) - 1)
              end
          end in
        match currentCell with
        | Some c => inr (mkAnchor (id c) (language c) (metadata c))
        | None => inl TypeError
        end
    end in
  match anchor' with
  | inl e => inl e
  | inr a =>
      let anchorIdx :=
        findIndex (λ cell, bool_decide (id cell = anchor_id a)) (cells currentState) in
      let prevIdx := match direction with above => anchorIdx - 1 | below => anchorIdx end in
      match js_index (cells currentState) prevIdx with
      | Some maybePrev =>
          inr (dispatch confirm
                 (CreateCell (anchor_language a) "" (anchor_metadata a) (id maybePrev)) s)
      | None => inl TypeError
      end
  end.

(** [deleteCell(id?)] *)
Definition deleteCell (i : option Z) (s : NotebookState) : Eff NotebookState :=
  let i := match i with Some n => Some n | None => id <$> activeCell s end in
  match i with
  | Some n => dispatch confirm (DeleteCell n) s
  | None => ret s
  end.

Definition runActiveCell (s : NotebookState) : Eff NotebookState :=
  match id <$> activeCell s with
  | Some n => dispatch confirm (RequestCellRun [n]) s
  | None => ret s
  end.

(** [runToActiveCell()]. [state.cells.splice(0, activeIdx)] takes the first
    [activeIdx] cells out of the array [getState()] returned, in place (none
    for an index of 0 or -1): the state the dispatch then works on has lost
    them. *)
Definition runToActiveCell (s : NotebookState) : Eff NotebookState :=
  let state := s in
  let i := id <$> activeCell state in
  let activeIdx := findIndex (id_is i) (cells state) in
  let cellsToRun := id <$> take (Z.to_nat activeIdx) (cells state) in
  let state := with_cells (drop (Z.to_nat activeIdx) (cells state)) state in
  if decide (0 < length cellsToRun)%nat
  then dispatch confirm (RequestCellRun cellsToRun) state
  else ret state.
End Helpers.
End Helpers.

(** ** The server message dispatcher *)
Module ServerDispatcher.
Section ServerDispatcher.
Context `{DataTypes}.
Import Dispatcher.

(** What [ServerStateHandler.loadNotebook(path).loaded] is, whether a value
    of it is truthy, and the value a load gives: declared in
    [state/server_state], taken as parameters. *)
Variable Loaded : Type.
Variable truthy : Loaded → bool.
Variable loadNotebook : string → Loaded.

(** Modelled from the spec: the server state of [state/server_state], the
    notebooks by path and the current notebook. (A path is taken not to be
    the name of a member every JavaScript object inherits.) *)
Record ServerState := mkServerState {
  notebooks : gmap string Loaded;
  currentNotebook : option string;
}.

(** Modelled from the spec: the message classes of [data/messages] the server
    dispatcher sends, with the arguments it passes. *)
Inductive ServerMessage :=
  | ListNotebooks (paths : list string)
  | CreateNotebookMsg (path : string) (content : option string)
  | RenameNotebookMsg (oldPath newPath : string)
  | CopyNotebookMsg (oldPath newPath : string)
  | DeleteNotebookMsg (path : string).

Inductive ServerEffect :=
  | SendToServer (m : ServerMessage)
  | LoadNotebookCall (path : string)
  | SetAbout (section : string).

(** [ServerMessageDispatcher.dispatch]: [newS] when a branch set it, the
    state as it was otherwise. *)
Definition dispatch (action : UIAction) (s : ServerState)
    : ServerState * list ServerEffect :=
  match action with
  | RequestNotebooksList => (s, [SendToServer (ListNotebooks [])])
  | LoadNotebook path =>
      let missing :=
        match notebooks s !! path with
        | Some v => negb (truthy v)
        | None => true
        end in
      if missing
      then (mkServerState (<[path := loadNotebook path]> (notebooks s)) (Some path),
            [LoadNotebookCall path])
      else (mkServerState (notebooks s) (Some path), [])
  | CreateNotebook path content => (s, [SendToServer (CreateNotebookMsg path content)])
  | RenameNotebook oldPath newPath => (s, [SendToServer (RenameNotebookMsg oldPath newPath)])
  | CopyNotebook oldPath newPath => (s, [SendToServer (CopyNotebookMsg oldPath newPath)])
  | DeleteNotebook path => (s, [SendToServer (DeleteNotebookMsg path)])
  | ViewAbout section => (s, [SetAbout section])
  | SetSelectedNotebook path => (mkServerState (notebooks s) path, [])
  | _ => (s, [])
  end.

Fixpoint dispatchAll (actions : list UIAction) (s : ServerState)
    : ServerState * list ServerEffect :=
  match actions with
  | [] => (s, [])
  | a :: rest =>
      let r := dispatch a s in
      let r' := dispatchAll rest r.1 in
      (r'.1, r.2 ++ r'.2)
  end.
End ServerDispatcher.
End ServerDispatcher.

(** ** Main: the recent notebooks *)
Module Main.
Import Stdlib.Strings.Ascii.

(** An entry of the recent notebooks, [{path, name}]. *)
Record Recent := mkRecent { path : string; name : string }.

#[global] Instance Recent_eq_dec : EqDecision Recent.
Proof. solve_decision. Defined.

(** [s.split(/\//g)]: the pieces between the slashes, at least one. *)
Fixpoint split_slash (s : string) : list string :=
  match s with
  | EmptyString => [""]
  | String c s' =>
      if Ascii.eqb c "/"%char then "" :: split_slash s'
      else
        match split_slash s' with
        | seg :: rest => String c seg :: rest
        | [] => [String c ""]
        end
  end.

(** [path.split(/\//g).pop()] *)
Definition lastSegment (p : string) : string := default "" (last (split_slash p)).

(** The function [handlePath] hands to [RecentNotebooksHandler.updateState]. *)
Definition updateRecents (p : string) (recents : list Recent) : list Recent :=
  match List.find (λ r, bool_decide (path r = p)) recents with
  | Some maybeExists =>
      maybeExists :: List.filter (λ r, negb (bool_decide (path r = p))) recents
  | None => mkRecent p (lastSegment p) :: recents
  end.

(** [Main.handlePath(path?)]: the document title it sets and what it makes of
    the recent notebooks. (The [history.pushState] calls, whose URLs the
    browser builds, are left out.) *)
Definition handlePath (p : option string) (recents : list Recent)
    : string * list Recent :=
  match p with
  | Some p' =>
      if bool_decide (p' ≠ "") && bool_decide (p' ≠ "home")
      then (lastSegment p' +:+ " | Polynote", updateRecents p' recents)
      else ("Polynote", recents)
  | None => ("Polynote", recents)
  end.
End Main.

(** ** Predicates the added properties are stated with *)

(** The dispatches that return a state with a new [localVersion]. *)
Definition storesVersion `{DataTypes} (a : Dispatcher.UIAction) : bool :=
  match a with
  | Dispatcher.DeleteCell _ | Dispatcher.UpdateConfig _ => true
  | _ => false
  end.

(** The messages that edit notebook content. *)
Definition isContentUpdate `{DataTypes} (m : messages.Message) : bool :=
  match m with
  | messages.InsertCell _ _ _ _ | messages.UpdateCell _ _ _ _ _
  | messages.DeleteCell _ _ _ | messages.UpdateConfig _ _ _ => true
  | _ => false
  end.

(** A stored backup of the notebook at [p]: filed under its own path, and no
    cell of it keeps results. *)
Definition backup_ok `{DataTypes} (p : string) (b : Stored.Backup) : Prop :=
  Stored.path b = p ∧ Forall (λ c, NotebookCell.results c = []) (Stored.cells b).

(** A store entry under the key [p]. *)
Definition entry_ok `{DataTypes} (p : string) (s : Stored.Backups) : Prop :=
  Stored.bpath s = p
  ∧ (1 ≤ size (Stored.backups s) ≤ S BACKUPS_PER_NOTEBOOK)%nat
  ∧ ∀ d l, Stored.backups s !! d = Some l →
           (1 ≤ length l ≤ BACKUPS_PER_DAY)%nat ∧ Forall (backup_ok p) l.

(** The same of a backups object in memory, which may hold no bucket yet. *)
Definition loaded_ok `{DataTypes} (p : string) (b : Backups.t) : Prop :=
  Backups.path b = p
  ∧ (size (Backups.backups b) ≤ S BACKUPS_PER_NOTEBOOK)%nat
  ∧ ∀ d l, Backups.backups b !! d = Some l →
           (1 ≤ length l ≤ BACKUPS_PER_DAY)%nat
           ∧ Forall (λ x, backup_ok p (Stored.freezeBackup (Backup.asI x))) l.

(** The id the [SetSelectedCell] branch of [dispatch] settles on. *)
Definition chosenId `{DataTypes} (selected : option Z)
    (relative : option Dispatcher.Relative) (cs : list Dispatcher.CellState) : option Z :=
  let id1 :=
    match relative with
    | Some Dispatcher.above =>
        Dispatcher.id <$> js_index cs (findIndex (Dispatcher.id_is selected) cs - 1)
    | Some Dispatcher.below =>
        Dispatcher.id <$> js_index cs (findIndex (Dispatcher.id_is selected) cs + 1)
    | None => selected
    end in
  match id1 with
  | Some i => Some i
  | None => if bool_decide (selected = Some (-1)) then Some 0 else selected
  end.

(** * The dispatcher: versions, edit buffer, requests and selection *)

Section DispatcherFacts.
Context `{DataTypes}.
Import Dispatcher.
Variable confirm : string → bool.

Lemma bind_fst {A B} (m : Eff A) (k : A → Eff B) : (bind m k).1 = (k m.1).1.
Proof. unfold bind. by destruct (k m.1). Qed.

Lemma bind_snd {A B} (m : Eff A) (k : A → Eff B) : (bind m k).2 = m.2 ++ (k m.1).2.
Proof. unfold bind. by destruct (k m.1). Qed.

(** Which branches store a new [localVersion]: [DeleteCell] and
    [UpdateConfig] do ([++state.localVersion] on the copy they return), the
    other branches return the field as it was. *)
Lemma dispatch_localVersion a s :
  localVersion (dispatch confirm a s).1 =
    match a with
    | DeleteCell _ | UpdateConfig _ => localVersion s + 1
    | _ => localVersion s
    end.
Proof.
  destruct a; try reflexivity.
  destruct command; cbn; [reflexivity|]. by destruct (confirm _).
Qed.

(** Every content edit sends one versioned message carrying the next local
    version, and the edit buffer grows by that message, under the key the
    returned state holds as [localVersion]. *)
Lemma mutating_dispatch_shape a s :
  mutating a = true →
  ∃ m, (dispatch confirm a s).2 = [Send m]
       ∧ messages.localVersionOf m = Some (localVersion s + 1)
       ∧ editBuffer (dispatch confirm a s).1
         = editBuffer s ++ [(localVersion (dispatch confirm a s).1, m)].
Proof.
  destruct a; try discriminate; intros _; cbn; eexists; (split; [reflexivity|]);
    (split; reflexivity).
Qed.

(** Runs of [DeleteCell] and [UpdateConfig] alone count every edit. *)
Lemma dispatchAll_counting_branches actions s :
  Forall (λ a, match a with DeleteCell _ | UpdateConfig _ => True | _ => False end) actions →
  localVersion (dispatchAll confirm actions s).1 = localVersion s + Z.of_nat (length actions).
Proof.
  intros Hall. revert s. induction Hall as [|a rest Ha _ IH]; intros s.
  - cbn. lia.
  - cbn [dispatchAll length]. rewrite bind_fst, IH, dispatch_localVersion.
    destruct a; try contradiction; lia.
Qed.

(** [maxId] is the largest id, or -1 when that is larger (no cell at all). *)
Lemma maxId_foldl_max cs acc :
  foldl (λ acc cell, if decide (acc > id cell) then acc else id cell) acc cs
  = foldl Z.max acc (id <$> cs).
Proof.
  revert acc. induction cs as [|c cs IH]; intros acc; [reflexivity|].
  cbn. rewrite <- IH. f_equal. case_decide; lia.
Qed.

Lemma maxId_nil : maxId [] = -1.
Proof. reflexivity. Qed.
End DispatcherFacts.

Section DispatcherClaims.
Context `{DataTypes}.
Import Dispatcher.
Variable confirm : string → bool.

(** C2, as the code has it: dispatching [CreateCell(lang, "", meta, prev=0)]
    on a notebook whose cells have the ids 0 and 1 and whose local version
    is 0 sends exactly one message, an [InsertCell] carrying local version 1,
    a new cell of id 2 (in general the largest id in use plus one, 0 when
    there is no cell) and [prev = 0]; that message is added at the end of
    the edit buffer; the local cell list is left as it was, the new cell is
    not put into it by the dispatcher. *)
Theorem C2_CreateCell_sends_InsertCell s language metadata :
  id <$> cells s = [0; 1] →
  localVersion s = 0 →
  let r := dispatch confirm (CreateCell language "" metadata 0) s in
  let update :=
    messages.InsertCell (globalVersion s) 1
      (NotebookCell.mk 2 language "" [] metadata ∅) 0 in
  r.2 = [Send update]
  ∧ cells r.1 = cells s
  ∧ (editBuffer r.1).*2 = (editBuffer s).*2 ++ [update]
  ∧ ∀ s' content prev,
      (dispatch confirm (CreateCell language content metadata prev) s').2
      = [Send (messages.InsertCell (globalVersion s') (localVersion s' + 1)
                 (NotebookCell.mk (foldl Z.max (-1) (id <$> cells s') + 1)
                    language content [] metadata ∅) prev)].
Proof.
  intros Hids Hlv r update. subst r update. cbn.
  unfold maxId. rewrite maxId_foldl_max, Hids, Hlv. cbn.
  repeat split.
  - unfold EditBuffer_push. by rewrite fmap_app.
  - intros s' content prev. by rewrite maxId_foldl_max.
Qed.

(** C8: a [RequestCompletions] dispatch sends the request, calls the
    [reject] of the completion request that was pending, if any, and leaves
    the new request's callbacks as the only pending completion request;
    [RequestSignature] does the same with the pending signature request.
    Two requests in a row reject the first one's callback before the second
    one's callbacks are in place. *)
Theorem C8_request_supersedes_pending s cellId offset res rej :
  (let r := dispatch confirm (RequestCompletions cellId offset res rej) s in
   r.2 = Send (messages.CompletionsAt cellId offset [])
         :: match activeCompletion s with
            | Some pending => [Call (reject pending)]
            | None => []
            end
   ∧ r.1 = with_activeCompletion (Some (mkPending res rej)) s)
  ∧ (let r := dispatch confirm (RequestSignature cellId offset res rej) s in
     r.2 = Send (messages.ParametersAt cellId offset)
           :: match activeSignature s with
              | Some pending => [Call (reject pending)]
              | None => []
              end
     ∧ r.1 = with_activeSignature (Some (mkPending res rej)) s)
  ∧ (∀ cellId' offset' res' rej',
       let r := dispatchAll confirm
                  [RequestCompletions cellId offset res rej;
                   RequestCompletions cellId' offset' res' rej'] s in
       activeCompletion r.1 = Some (mkPending res' rej')
       ∧ ∃ before, r.2 = before ++ [Call rej])
  ∧ (∀ cellId' offset' res' rej',
       let r := dispatchAll confirm
                  [RequestSignature cellId offset res rej;
                   RequestSignature cellId' offset' res' rej'] s in
       activeSignature r.1 = Some (mkPending res' rej')
       ∧ ∃ before, r.2 = before ++ [Call rej]).
Proof.
  repeat split; cbn.
  - by destruct (activeCompletion s).
  - by destruct (activeSignature s).
  - destruct (activeCompletion s); cbn.
    + by eexists [_; _; _].
    + by eexists [_; _].
  - destruct (activeSignature s); cbn.
    + by eexists [_; _; _].
    + by eexists [_; _].
Qed.

(** C9, as the code has it: dispatching [SetSelectedCell(selected, relative)]
    always returns a state, for any cell list, and sends nothing. One id (or
    none) is chosen; the cells are flagged by it and the active cell is the
    first cell having it. When [relative] is "above" or "below" and the cell
    order has no cell at the neighbouring index, the chosen id is [selected]
    itself, except that [selected = -1] gives 0; an undefined [selected]
    stays undefined, so that no cell is selected. In particular
    [SetSelectedCell(id, "above")] with [id] the id of the first cell (not
    -1) chooses [id]. *)
Theorem C9_SetSelectedCell_fallback s selected relative :
  let r := dispatch confirm (SetSelectedCell selected relative) s in
  ∃ chosen : option Z,
    r.2 = []
    ∧ cells r.1 = map (λ cell, cell_with_selected (id_is chosen cell) cell) (cells s)
    ∧ activeCell r.1 = List.find (id_is chosen) (cells s)
    ∧ (∀ rel,
         relative = Some rel →
         js_index (cells s)
           (findIndex (id_is selected) (cells s)
            + match rel with above => -1 | below => 1 end) = None →
         chosen = if bool_decide (selected = Some (-1)) then Some 0 else selected)
    ∧ (∀ i first rest,
         cells s = first :: rest → id first = i → i ≠ -1 →
         selected = Some i → relative = Some above →
         chosen = Some i).
Proof.
  cbn. eexists. split; [reflexivity|]. split; [reflexivity|]. split; [reflexivity|].
  split.
  - intros rel -> Hnone. destruct rel; cbn; change (?x - 1) with (x + -1);
      by rewrite Hnone.
  - intros i first rest Hcells Hid Hne -> ->. rewrite Hcells.
    unfold findIndex. cbn. rewrite Hid, bool_decide_eq_true_2 by done. cbn.
    rewrite bool_decide_eq_false_2; [done|]. intros [= ->]. done.
Qed.

(** C10: a dispatch of [CreateComment], [UpdateComment], [DeleteComment],
    [SetCurrentSelection], [SetCellOutput], [RequestNotebookVersion],
    [RequestCancelTasks] or [RequestClearOutput] returns the notebook state
    it was given, field for field (so neither [localVersion] nor the edit
    buffer changes), and its only effect is one message sent. *)
Theorem C10_sendOnly_keeps_state a s :
  sendOnly a = true →
  ∃ m, dispatch confirm a s = (s, [Send m]).
Proof.
  destruct a; try discriminate; intros _; cbn; by eexists.
Qed.
End DispatcherClaims.

(** C1 fails on the code: one [CreateCell] dispatched on a notebook whose
    local version is 0 is one content edit, and the local version of the
    state it returns is still 0. The branch computes the next version for
    the message and returns the state without it. *)
Theorem C1_CreateCell_does_not_store_version :
  let actions := [Examples.createAfter0] in
  forallb Dispatcher.mutating actions = true
  ∧ length actions = 1%nat
  ∧ Dispatcher.localVersion Examples.state01 = 0
  ∧ Dispatcher.localVersion
      (Dispatcher.dispatchAll Examples.alwaysConfirm actions Examples.state01).1 = 0.
Proof. repeat split. Qed.

(** C2 as stated fails: after [CreateCell(lang, "", meta, prev=0)] on the
    cells [[{id:0},{id:1}]] the local cell list does not hold a cell of id 2
    after cell 0 (it still is [[{id:0},{id:1}]]), whatever the message
    says. *)
Lemma C2_counterexample :
  ¬ (let r := Dispatcher.dispatch Examples.alwaysConfirm Examples.createAfter0
                Examples.state01 in
     Dispatcher.id <$> Dispatcher.cells r.1 = [0; 2; 1]
     ∧ Dispatcher.localVersion r.1 = Dispatcher.localVersion Examples.state01 + 1
     ∧ ∃ cell, NotebookCell.id cell = 2
               ∧ r.2 = [Dispatcher.Send (messages.InsertCell 0 1 cell 0)]).
Proof. intros [Hcells _]. vm_compute in Hcells. discriminate Hcells. Qed.

Lemma C2_CreateCell_sends_InsertCell_witness :
  let s := Examples.state01 in
  let r := Dispatcher.dispatch Examples.alwaysConfirm Examples.createAfter0 s in
  r.2 = [Dispatcher.Send
           (messages.InsertCell 0 1 (NotebookCell.mk 2 "scala" "" [] "meta" ∅) 0)]
  ∧ Dispatcher.cells r.1 = Dispatcher.cells s.
Proof.
  destruct (C2_CreateCell_sends_InsertCell Examples.alwaysConfirm Examples.state01
              "scala" "meta" eq_refl eq_refl) as (Hsent & Hcells & _).
  split; [exact Hsent | exact Hcells].
Defined.

(** C3 fails on the code: the [InsertCell] that a [CreateCell] dispatch sends
    from local version 0 carries local version 1, and the edit buffer holds
    that same message under the key 0. *)
Theorem C3_CreateCell_buffers_under_old_version :
  let r := Dispatcher.dispatch Examples.alwaysConfirm Examples.createAfter0
             Examples.state01 in
  ∃ m, r.2 = [Dispatcher.Send m]
       ∧ messages.localVersionOf m = Some 1
       ∧ Dispatcher.editBuffer r.1 = [(0, m)].
Proof. cbn. eexists. repeat split. Qed.

(** C9 as stated fails: with [selected] undefined and [relative = "above"]
    the neighbour does not exist and nothing is selected; the selection does
    not fall back to the cell of id 0. *)
Lemma C9_counterexample :
  ¬ (let r := Dispatcher.dispatch Examples.alwaysConfirm
                (Dispatcher.SetSelectedCell None (Some Dispatcher.above))
                Examples.state01 in
     ∃ cell, Dispatcher.activeCell r.1 = Some cell ∧ Dispatcher.id cell = 0).
Proof. intros (cell & Hactive & _). vm_compute in Hactive. discriminate Hactive. Qed.

Lemma C9_SetSelectedCell_fallback_witness :
  let r := Dispatcher.dispatch Examples.alwaysConfirm
             (Dispatcher.SetSelectedCell (Some 0) (Some Dispatcher.above))
             Examples.state01 in
  r.2 = [] ∧ Dispatcher.id <$> Dispatcher.activeCell r.1 = Some 0.
Proof.
  destruct (C9_SetSelectedCell_fallback Examples.alwaysConfirm Examples.state01
              (Some 0) (Some Dispatcher.above)) as (chosen & Heff & _ & Hactive & _ & Hfirst).
  split; [exact Heff|].
  rewrite Hactive.
  rewrite (Hfirst 0 _ _ eq_refl eq_refl ltac:(lia) eq_refl eq_refl).
  reflexivity.
Defined.

Lemma C10_sendOnly_keeps_state_witness :
  ∃ m, Dispatcher.dispatch Examples.alwaysConfirm Examples.commentOn0 Examples.state01
       = (Examples.state01, [Dispatcher.Send m]).
Proof.
  apply (C10_sendOnly_keeps_state Examples.alwaysConfirm Examples.commentOn0
           Examples.state01).
  reflexivity.
Defined.

(** * The backup store: retention and the latest backup *)

Section KeyFacts.

Lemma foldr_min_spec (ks : list Z) (k0 : Z) :
  (foldr Z.min k0 ks = k0 ∨ foldr Z.min k0 ks ∈ ks)
  ∧ foldr Z.min k0 ks ≤ k0
  ∧ ∀ k, k ∈ ks → foldr Z.min k0 ks ≤ k.
Proof.
  induction ks as [|k1 ks (Hin & Hle & Hall)]; cbn.
  - split; [by left|]. split; [lia|]. intros k Hk. by apply elem_of_nil in Hk.
  - split; [|split].
    + destruct (Z.min_spec k1 (foldr Z.min k0 ks)) as [[_ ->]|[_ ->]].
      * right. by left.
      * destruct Hin as [Hin|Hin]; [by left|]. right. by right.
    + lia.
    + intros k [->|Hk]%elem_of_cons; [lia|]. specialize (Hall k Hk). lia.
Qed.

Lemma foldr_max_spec (ks : list Z) (k0 : Z) :
  (foldr Z.max k0 ks = k0 ∨ foldr Z.max k0 ks ∈ ks)
  ∧ k0 ≤ foldr Z.max k0 ks
  ∧ ∀ k, k ∈ ks → k ≤ foldr Z.max k0 ks.
Proof.
  induction ks as [|k1 ks (Hin & Hle & Hall)]; cbn.
  - split; [by left|]. split; [lia|]. intros k Hk. by apply elem_of_nil in Hk.
  - split; [|split].
    + destruct (Z.max_spec k1 (foldr Z.max k0 ks)) as [[_ ->]|[_ ->]].
      * destruct Hin as [Hin|Hin]; [by left|]. right. by right.
      * right. by left.
    + lia.
    + intros k [->|Hk]%elem_of_cons; [lia|]. specialize (Hall k Hk). lia.
Qed.

Lemma math_min_Some ks k :
  math_min ks = Some k → k ∈ ks ∧ ∀ k', k' ∈ ks → k ≤ k'.
Proof.
  destruct ks as [|k0 ks]; [discriminate|]. intros [= <-].
  destruct (foldr_min_spec ks k0) as (Hin & Hle & Hall). split.
  - destruct Hin as [->|Hin]; [by left | by right].
  - intros k' [->|Hk]%elem_of_cons; [done | by apply Hall].
Qed.

Lemma math_max_Some ks k :
  math_max ks = Some k → k ∈ ks ∧ ∀ k', k' ∈ ks → k' ≤ k.
Proof.
  destruct ks as [|k0 ks]; [discriminate|]. intros [= <-].
  destruct (foldr_max_spec ks k0) as (Hin & Hle & Hall). split.
  - destruct Hin as [->|Hin]; [by left | by right].
  - intros k' [->|Hk]%elem_of_cons; [done | by apply Hall].
Qed.

Lemma elem_of_object_keys {A} (o : gmap Z A) k :
  k ∈ object_keys o ↔ is_Some (o !! k).
Proof.
  unfold object_keys. rewrite list_elem_of_fmap. split.
  - intros ([k' x] & -> & Hin). apply elem_of_map_to_list in Hin. by exists x.
  - intros [x Hx]. exists (k, x). split; [done|]. by apply elem_of_map_to_list.
Qed.

Lemma object_keys_nil {A} (o : gmap Z A) : object_keys o = [] ↔ o = ∅.
Proof.
  unfold object_keys. rewrite <- map_to_list_empty_iff.
  split; [apply fmap_nil_inv | by intros ->].
Qed.

(** The largest key is fixed by which keys there are. *)
Lemma math_max_keys {A} (o : gmap Z A) k :
  math_max (object_keys o) = Some k
  ↔ is_Some (o !! k) ∧ ∀ k', is_Some (o !! k') → k' ≤ k.
Proof.
  split.
  - intros [Hin Hall]%math_max_Some. split; [by apply elem_of_object_keys|].
    intros k' Hk'. by apply Hall, elem_of_object_keys.
  - intros [Hin Hall]. destruct (math_max (object_keys o)) as [k1|] eqn:Hmax.
    + apply math_max_Some in Hmax as [Hin1 Hall1].
      apply elem_of_object_keys in Hin, Hin1 as Hin1'.
      specialize (Hall1 k Hin). specialize (Hall k1 Hin1'). f_equal. lia.
    + destruct (object_keys o) eqn:Hks; [|discriminate].
      apply object_keys_nil in Hks. subst o. destruct Hin as [x Hx].
      by rewrite lookup_empty in Hx.
Qed.

Lemma math_max_keys_None {A} (o : gmap Z A) :
  math_max (object_keys o) = None ↔ o = ∅.
Proof.
  rewrite <- object_keys_nil. destruct (object_keys o); cbn; split; done.
Qed.

Lemma math_max_keys_same_dom {A B} (o1 : gmap Z A) (o2 : gmap Z B) :
  (∀ k, is_Some (o1 !! k) ↔ is_Some (o2 !! k)) →
  math_max (object_keys o1) = math_max (object_keys o2).
Proof.
  intros Hdom. destruct (math_max (object_keys o2)) as [k|] eqn:Hmax.
  - apply math_max_keys. apply math_max_keys in Hmax as [Hin Hall]. split.
    + by apply Hdom.
    + intros k' Hk'. by apply Hall, Hdom.
  - apply math_max_keys_None. apply math_max_keys_None in Hmax. subst o2.
    apply map_eq. intros k. rewrite lookup_empty. apply eq_None_not_Some.
    rewrite Hdom, lookup_empty. by intros [? ?].
Qed.
End KeyFacts.

Section RetentionFacts.
Context `{DataTypes}.
Import Backups.

Lemma dropOldestDay_lookup_Some (bs : gmap Z (list Backup.t)) d l :
  dropOldestDay bs !! d = Some l → bs !! d = Some l.
Proof.
  unfold dropOldestDay. case_decide; [|done].
  destruct (math_min (object_keys bs)) as [k|]; [|done].
  intros Hl. by apply lookup_delete_Some in Hl as [_ Hl].
Qed.

(** The bucket of a day survives the first step unless there are more than
    [BACKUPS_PER_NOTEBOOK] buckets and the day is the oldest of them. *)
Lemma dropOldestDay_lookup_kept (bs : gmap Z (list Backup.t)) d :
  (size bs ≤ BACKUPS_PER_NOTEBOOK)%nat ∨ math_min (object_keys bs) ≠ Some d →
  dropOldestDay bs !! d = bs !! d.
Proof.
  intros Hkeep. unfold dropOldestDay. case_decide as Hsize; [|done].
  destruct Hkeep as [Hle|Hne]; [lia|].
  destruct (math_min (object_keys bs)) as [k|]; [|done].
  apply lookup_delete_ne. congruence.
Qed.

(** Over the limit the first step removes exactly one bucket. *)
Lemma dropOldestDay_size (bs : gmap Z (list Backup.t)) :
  size (dropOldestDay bs)
  = if decide (BACKUPS_PER_NOTEBOOK < size bs)%nat then pred (size bs) else size bs.
Proof.
  unfold dropOldestDay. case_decide as Hsize; [|done].
  destruct (math_min (object_keys bs)) as [k|] eqn:Hmin.
  - apply math_min_Some in Hmin as [Hin _]. apply elem_of_object_keys in Hin.
    by apply map_size_delete_Some.
  - destruct (object_keys bs) eqn:Hks; [|discriminate].
    apply object_keys_nil in Hks. subst bs. rewrite map_size_empty in Hsize.
    unfold BACKUPS_PER_NOTEBOOK in Hsize. lia.
Qed.

Lemma pushToday_lookup_today clk backup (bs : gmap Z (list Backup.t)) :
  pushToday clk backup bs !! todayTs clk =
    Some match bs !! todayTs clk with
         | None => [backup]
         | Some todayBackups =>
             if decide (length todayBackups < BACKUPS_PER_DAY)%nat
             then todayBackups ++ [backup]
             else tail todayBackups ++ [backup]
         end.
Proof.
  unfold pushToday. destruct (bs !! todayTs clk) as [l|]; [case_decide|];
    by rewrite lookup_insert_eq.
Qed.

Lemma pushToday_lookup_other clk backup (bs : gmap Z (list Backup.t)) d :
  d ≠ todayTs clk → pushToday clk backup bs !! d = bs !! d.
Proof.
  intros Hne. unfold pushToday. destruct (bs !! todayTs clk) as [l|]; [case_decide|];
    by rewrite lookup_insert_ne.
Qed.

Lemma pushToday_size clk backup (bs : gmap Z (list Backup.t)) :
  (size (pushToday clk backup bs) ≤ S (size bs))%nat.
Proof.
  unfold pushToday. destruct (bs !! todayTs clk) as [l|] eqn:Htoday; [case_decide|];
    rewrite map_size_insert, Htoday; cbn; lia.
Qed.

(** The bounds [addBackup] does keep: at most [BACKUPS_PER_NOTEBOOK + 1]
    day buckets, and at most [BACKUPS_PER_DAY] backups in each. *)
Lemma addBackup_keeps_bounds clk backup self :
  (size (backups self) ≤ S BACKUPS_PER_NOTEBOOK)%nat →
  (∀ d l, backups self !! d = Some l → (length l ≤ BACKUPS_PER_DAY)%nat) →
  (size (backups (addBackup clk backup self)) ≤ S BACKUPS_PER_NOTEBOOK)%nat
  ∧ ∀ d l, backups (addBackup clk backup self) !! d = Some l →
           (length l ≤ BACKUPS_PER_DAY)%nat.
Proof.
  intros Hsize Hlen. unfold addBackup. cbn. split.
  - pose proof (pushToday_size clk backup (dropOldestDay (backups self))) as Hpush.
    rewrite dropOldestDay_size in Hpush. case_decide; lia.
  - intros d l. destruct (decide (d = todayTs clk)) as [->|Hne].
    + rewrite pushToday_lookup_today. intros [= <-].
      destruct (dropOldestDay (backups self) !! todayTs clk) as [l0|] eqn:Hl0.
      * apply dropOldestDay_lookup_Some, Hlen in Hl0. unfold BACKUPS_PER_DAY in *.
        case_decide; rewrite length_app; cbn; [lia|].
        destruct l0; cbn in *; lia.
      * unfold BACKUPS_PER_DAY. cbn. lia.
    + rewrite pushToday_lookup_other by done. intros Hl.
      by apply dropOldestDay_lookup_Some, Hlen in Hl.
Qed.

(** C6, as the code has it: provided the total-limit step does not remove
    today's bucket (there are at most [BACKUPS_PER_NOTEBOOK] day buckets, or
    today is not the numerically smallest day): when today's bucket holds
    exactly [BACKUPS_PER_DAY] backups, [addBackup] drops its entry of index 0
    and appends the new backup at the end, and the bucket still holds
    [BACKUPS_PER_DAY] backups; when it holds fewer, the new backup is
    appended and nothing is dropped; when there is no bucket for today, one
    is created with the new backup as its only entry. *)
Theorem C6_today_bucket_sliding_window clk backup self :
  (size (backups self) ≤ BACKUPS_PER_NOTEBOOK)%nat
  ∨ math_min (object_keys (backups self)) ≠ Some (todayTs clk) →
  let after := backups (addBackup clk backup self) !! todayTs clk in
  match backups self !! todayTs clk with
  | None => after = Some [backup]
  | Some todayBackups =>
      (length todayBackups = BACKUPS_PER_DAY →
       ∃ earliest rest,
         todayBackups = earliest :: rest
         ∧ after = Some (rest ++ [backup])
         ∧ length (rest ++ [backup]) = BACKUPS_PER_DAY)
      ∧ ((length todayBackups < BACKUPS_PER_DAY)%nat →
         after = Some (todayBackups ++ [backup]))
  end.
Proof.
  intros Hkeep. cbn. rewrite pushToday_lookup_today.
  rewrite (dropOldestDay_lookup_kept _ _ Hkeep).
  destruct (backups self !! todayTs clk) as [todayBackups|]; [|done]. split.
  - intros Hfull. destruct todayBackups as [|earliest rest]; [discriminate|].
    exists earliest, rest. split; [done|]. rewrite decide_False by lia. cbn.
    split; [done|]. rewrite length_app. cbn in *. lia.
  - intros Hroom. by rewrite decide_True.
Qed.
End RetentionFacts.

(** C5 fails on the code: one backup on each of 101 different days, added to
    a new container, leaves 101 day buckets, more than
    [BACKUPS_PER_NOTEBOOK]: the oldest bucket goes only when the count is
    already above the limit and before today's bucket is created. A backup on
    one more day removes the oldest day and leaves 101 buckets again. *)
Theorem C5_one_bucket_over_the_limit :
  let b := Examples.addOnDays (Examples.firstDays 101) (Backups.new "nb") in
  let b' := Examples.addOnDays [101] b in
  size (Backups.backups b) = 101%nat
  ∧ (BACKUPS_PER_NOTEBOOK < size (Backups.backups b))%nat
  ∧ Backups.backups b' !! 0 = None
  ∧ size (Backups.backups b') = 101%nat.
Proof.
  intros b b'. assert (Hsize : size (Backups.backups b) = 101%nat) by (vm_compute; reflexivity).
  split; [exact Hsize|]. split; [rewrite Hsize; unfold BACKUPS_PER_NOTEBOOK; lia|].
  split; vm_compute; reflexivity.
Qed.

(** C6 as stated fails: with 101 day buckets of which today's is the oldest
    and holds exactly [BACKUPS_PER_DAY] backups, [addBackup] removes the
    whole bucket first; it then holds the new backup alone, not the last
    nine of the ten and the new one. *)
Lemma C6_counterexample :
  let clk := Examples.onDay 0 in
  let new := Examples.backupAt 1 in
  ∃ todayBackups,
    Backups.backups Examples.crowded !! todayTs clk = Some todayBackups
    ∧ length todayBackups = BACKUPS_PER_DAY
    ∧ Backups.backups (Backups.addBackup clk new Examples.crowded) !! todayTs clk
      ≠ Some (tail todayBackups ++ [new]).
Proof.
  eexists. split; [vm_compute; reflexivity|]. split; [reflexivity|].
  intros Heq. vm_compute in Heq. discriminate Heq.
Qed.

Lemma C6_today_bucket_sliding_window_witness :
  let clk := Examples.onDay 0 in
  let new := Examples.backupAt 1 in
  let full := Examples.addOnDays (replicate 10 0) (Backups.new "nb") in
  Backups.backups (Backups.addBackup clk new full) !! todayTs clk
  = Some (replicate 9 (Examples.backupAt 0) ++ [new]).
Proof.
  intros clk new full.
  pose proof (C6_today_bucket_sliding_window clk new full) as Hsw.
  assert (Hkeep : (size (Backups.backups full) ≤ BACKUPS_PER_NOTEBOOK)%nat
                  ∨ math_min (object_keys (Backups.backups full)) ≠ Some (todayTs clk)).
  { left. vm_compute. lia. }
  specialize (Hsw Hkeep).
  assert (Hfull : Backups.backups full !! todayTs clk
                  = Some (replicate 10 (Examples.backupAt 0))) by (vm_compute; reflexivity).
  rewrite Hfull in Hsw. destruct Hsw as [Hwindow _].
  destruct (Hwindow eq_refl) as (earliest & rest & Heq & Hafter & _).
  injection Heq as _ <-. exact Hafter.
Defined.

(** * The backup store: reading, writing and the latest backup *)

Section StoreFacts.
Context `{DataTypes}.
Import Backups.

Lemma last_imap {A B} (f : nat → A → B) (l : list A) :
  last (imap f l) = f (pred (length l)) <$> last l.
Proof. by rewrite !last_lookup, list_lookup_imap, length_imap. Qed.

Lemma nonempty_snoc {A} (l : list A) : l ≠ [] → ∃ l' x, l = l' ++ [x].
Proof.
  intros Hne. destruct (last l) as [x|] eqn:Hlast.
  - apply last_Some in Hlast as [l' ->]. by exists l', x.
  - by apply last_None in Hlast.
Qed.

(** What a backups object read in epoch [e] holds on day [d]. *)
Lemma loaded_lookup e (s : Stored.Backups) d :
  backups (fromI (Stored.revive e s)) !! d
  = (λ l, Backup.fromI <$> imap (Stored.reviveBackup e d) l) <$> Stored.backups s !! d.
Proof.
  cbn. rewrite lookup_fmap, map_lookup_imap. by destruct (Stored.backups s !! d).
Qed.

(** What the store holds on day [d] after a backups object is written. *)
Lemma frozen_lookup (b : t) d :
  Stored.backups (Stored.freeze (toI b)) !! d
  = (λ l, (Stored.freezeBackup ∘ Backup.asI) <$> l) <$> backups b !! d.
Proof.
  cbn. rewrite !lookup_fmap. destruct (backups b !! d) as [l|]; [|done].
  cbn. by rewrite <- list_fmap_compose.
Qed.

(** Written and read back, a backups object holds the same backups in the
    same buckets, at new addresses. *)
Lemma reloaded_lookup e (b : t) d :
  backups (fromI (Stored.revive e (Stored.freeze (toI b)))) !! d
  = imap (relocate e d) <$> backups b !! d.
Proof.
  rewrite loaded_lookup, frozen_lookup. destruct (backups b !! d) as [l|]; [|done].
  cbn. f_equal. by rewrite imap_fmap, fmap_imap.
Qed.

Lemma buckets_ok_transfer {A B} (m : gmap Z (list A)) (m' : gmap Z (list B))
    (g : Z → list A → list B) :
  (∀ d, m' !! d = g d <$> m !! d) →
  (∀ d l, g d l = [] → l = []) →
  buckets_ok m → buckets_ok m'.
Proof.
  intros Hlookup Hg [Hne Hbuckets]. split.
  - intros ->. apply Hne, map_eq. intros d. specialize (Hlookup d).
    rewrite lookup_empty in *. by destruct (m !! d).
  - intros d l' Hl'. rewrite Hlookup in Hl'.
    destruct (m !! d) as [l|] eqn:Hl; [|done]. injection Hl' as <-.
    intros Hnil. by apply Hg, (Hbuckets d l Hl) in Hnil.
Qed.

Lemma loaded_buckets_ok e (s : Stored.Backups) :
  buckets_ok (Stored.backups s) → buckets_ok (backups (fromI (Stored.revive e s))).
Proof.
  apply (buckets_ok_transfer _ _ _ (loaded_lookup e s)).
  intros d l Hnil. apply (f_equal length) in Hnil.
  rewrite length_fmap, length_imap in Hnil. by destruct l.
Qed.

Lemma frozen_buckets_ok (b : t) :
  buckets_ok (backups b) → buckets_ok (Stored.backups (Stored.freeze (toI b))).
Proof.
  apply (buckets_ok_transfer _ _ _ (frozen_lookup b)).
  intros d l Hnil. by apply fmap_nil_inv in Hnil.
Qed.

(** With a backup in every bucket and a bucket at all, there is a latest
    backup: the last one of the bucket of [latestDay]. *)
Lemma latest_of_buckets_ok clk (b : t) :
  buckets_ok (backups b) →
  ∃ day bucket latest,
    latestDay clk b = Some day
    ∧ backups b !! day = Some (bucket ++ [latest])
    ∧ latestBackup clk b = Some latest.
Proof.
  intros [Hne Hbuckets]. unfold latestDay, latestBackup.
  destruct (backups b !! todayTs clk) as [l|] eqn:Htoday.
  - destruct (nonempty_snoc l (Hbuckets _ _ Htoday)) as (bucket & latest & ->).
    exists (todayTs clk), bucket, latest. by rewrite last_snoc.
  - destruct (math_max (object_keys (backups b))) as [day|] eqn:Hmax.
    + pose proof Hmax as [[l Hl] _]%math_max_keys. rewrite Hl.
      destruct (nonempty_snoc l (Hbuckets _ _ Hl)) as (bucket & latest & ->).
      exists day, bucket, latest. by rewrite last_snoc.
    + by apply math_max_keys_None in Hmax.
Qed.

(** The latest backup is one of the backups of some bucket. *)
Lemma latestBackup_elem_of clk (b : t) x :
  latestBackup clk b = Some x → ∃ d l, backups b !! d = Some l ∧ x ∈ l.
Proof.
  unfold latestBackup. destruct (backups b !! todayTs clk) as [l|] eqn:Htoday.
  - intros Hlast. exists (todayTs clk), l. split; [done|].
    apply last_Some in Hlast as [l' ->]. apply elem_of_app. right. by left.
  - destruct (math_max (object_keys (backups b))) as [day|]; [|done].
    destruct (backups b !! day) as [l|] eqn:Hday; [|done].
    intros Hlast. exists day, l. split; [done|].
    apply last_Some in Hlast as [l' ->]. apply elem_of_app. right. by left.
Qed.

(** [Backups.addUpdate] throws exactly when there is no latest backup. *)
Lemma addUpdate_throws_iff clk upd (b : t) :
  (∃ err, addUpdate clk upd b = inl err) ↔ latestBackup clk b = None.
Proof.
  unfold addUpdate, latestBackup, latestDay.
  destruct (backups b !! todayTs clk) as [l|].
  - destruct (last l); split; try done; [by intros [err ?] | by eexists].
  - destruct (math_max (object_keys (backups b))) as [day|]; [|split; [done | by eexists]].
    destruct (backups b !! day) as [l|]; [|split; [done | by eexists]].
    destruct (last l); split; try done; [by intros [err ?] | by eexists].
Qed.

(** [Backups.addUpdate] appends to the update log of the latest backup, in
    its place. *)
Lemma addUpdate_latest clk upd (b : t) day bucket latest :
  latestDay clk b = Some day →
  backups b !! day = Some (bucket ++ [latest]) →
  latestBackup clk b = Some latest →
  addUpdate clk upd b
  = inr (mk (path b) (<[day := bucket ++ [Backup.addUpdate clk upd latest]]> (backups b))).
Proof.
  intros Hday Hbucket Hlatest. unfold addUpdate. rewrite Hlatest, Hday.
  do 2 f_equal. apply map_eq. intros d. destruct (decide (d = day)) as [->|Hne].
  - rewrite lookup_alter_eq, lookup_insert_eq, Hbucket. cbn. f_equal.
    rewrite length_app. cbn.
    replace (pred (length bucket + 1)) with (length bucket + 0)%nat by lia.
    by rewrite insert_app_r.
  - by rewrite lookup_alter_ne, lookup_insert_ne.
Qed.

(** After the latest backup is replaced, the replacement is the latest. *)
Lemma latestBackup_after_replace clk (b : t) p day old bucket x :
  latestDay clk b = Some day →
  backups b !! day = Some old →
  latestBackup clk (mk p (<[day := bucket ++ [x]]> (backups b))) = Some x.
Proof.
  unfold latestDay, latestBackup. intros Hday Hold. cbn.
  destruct (backups b !! todayTs clk) as [l|] eqn:Htoday.
  - injection Hday as <-. by rewrite lookup_insert_eq, last_snoc.
  - assert (day ≠ todayTs clk) by congruence.
    rewrite lookup_insert_ne, Htoday by done.
    rewrite (math_max_keys_same_dom _ (backups b)), Hday.
    + by rewrite lookup_insert_eq, last_snoc.
    + intros k. rewrite lookup_insert_is_Some'. split; [|by right].
      intros [<-|Hk]; [by exists old | done].
Qed.
End StoreFacts.

Section ClientBackupFacts.
Context `{DataTypes}.
Import Backups.

Lemma latestBackup_new clk path : latestBackup clk (Backups.new path) = None.
Proof.
  unfold latestBackup, Backups.new. cbn. rewrite lookup_empty.
  by rewrite (proj2 (math_max_keys_None (∅ : gmap Z (list Backup.t)))).
Qed.

(** Every array of a backups object read in epoch [e] was allocated in
    epoch [e]. *)
Lemma loaded_cells_epoch clk e (s : Stored.Backups) x :
  latestBackup clk (fromI (Stored.revive e s)) = Some x →
  epoch (addr (Backup.cells x)) = e.
Proof.
  intros (d & l & Hl & Hx)%latestBackup_elem_of. rewrite loaded_lookup in Hl.
  destruct (Stored.backups s !! d) as [l0|]; [|done]. injection Hl as <-.
  apply list_elem_of_fmap in Hx as (y & -> & Hy).
  apply list_elem_of_lookup in Hy as [i Hi]. rewrite list_lookup_imap in Hi.
  destruct (l0 !! i); [|done]. by injection Hi as <-.
Qed.

(** The test [backups.latestBackup()?.equals(backup)] of [addNb] is never
    true: the [cells] array of the new backup is the one [cells.map] just
    allocated, and no stored backup can hold that array. *)
Lemma addNb_equals_false clk path cells config w :
  match latestBackup clk (loadedBackups path w (S (S (next_epoch w)))) with
  | Some latest =>
      Backup.equals latest (builtBackup clk path cells config (next_epoch w))
  | None => false
  end = false.
Proof.
  unfold loadedBackups, builtBackup.
  destruct (idb w !! path) as [s|]; [|by rewrite latestBackup_new].
  destruct (latestBackup _ _) as [x|] eqn:Hlatest; [|done].
  apply loaded_cells_epoch in Hlatest. unfold Backup.equals, same_obj at 1. cbn.
  rewrite (bool_decide_eq_false_2 (addr (Backup.cells x) = _)).
  - by rewrite andb_false_r.
  - intros Heq. rewrite Heq in Hlatest. cbn in Hlatest. lia.
Qed.

(** [addNb] always adds the backup it built and writes the result. *)
Lemma addNb_run clk path cells config w :
  let e := next_epoch w in
  let b1 := addBackup clk (builtBackup clk path cells config e)
              (loadedBackups path w (S (S e))) in
  ClientBackup.addNb clk path cells config w
  = (Resolved b1,
     mkWorld _ (<[path := Stored.freeze (toI b1)]> (idb w)) (S (S (S e)))).
Proof.
  intros e b1. unfold ClientBackup.addNb, andThen, alloc, get. cbn.
  pose proof (addNb_equals_false clk path cells config w) as Hneq.
  subst b1 e. unfold loadedBackups, builtBackup in *.
  destruct (idb w !! path) as [s|]; cbn in *; by rewrite Hneq.
Qed.

Lemma getBackups_run path w :
  ClientBackup.getBackups path w
  = (match idb w !! path with
     | Some s => Resolved (Stored.revive (next_epoch w) s)
     | None => Rejected ("No Backup found for " +:+ path)
     end,
     mkWorld _ (idb w) (S (next_epoch w))).
Proof.
  unfold ClientBackup.getBackups, andThen, get. cbn.
  by destruct (idb w !! path).
Qed.

Lemma updateNb_run clk path upd w :
  ClientBackup.updateNb clk path upd w
  = match idb w !! path with
    | Some s =>
        match addUpdate clk upd (fromI (Stored.revive (next_epoch w) s)) with
        | inr b =>
            (Resolved b,
             mkWorld _ (<[path := Stored.freeze (toI b)]> (idb w)) (S (next_epoch w)))
        | inl err => (Rejected err, mkWorld _ (idb w) (S (next_epoch w)))
        end
    | None =>
        (Rejected ("Unable to find a current backup for notebook at " +:+ path),
         mkWorld _ (idb w) (S (next_epoch w)))
    end.
Proof.
  unfold ClientBackup.updateNb, andThen, get. cbn.
  destruct (idb w !! path) as [s|]; cbn; [|done].
  by destruct (addUpdate _ _ _).
Qed.

Lemma collectBackups_idb ks acc w :
  idb (ClientBackup.collectBackups ks acc w).2 = idb w.
Proof.
  revert acc w. induction ks as [|k ks IH]; intros acc w; [done|].
  cbn. unfold andThen. rewrite getBackups_run.
  destruct (idb w !! k); [by rewrite IH | done].
Qed.

Lemma allBackups_idb w : idb (ClientBackup.allBackups w).2 = idb w.
Proof.
  unfold ClientBackup.allBackups, andThen, keys. cbn. apply collectBackups_idb.
Qed.

Lemma clearBackups_idb w :
  idb (ClientBackup.clearBackups w).2 = idb w ∨ idb (ClientBackup.clearBackups w).2 = ∅.
Proof.
  unfold ClientBackup.clearBackups, andThen.
  pose proof (allBackups_idb w) as Hidb.
  destruct (ClientBackup.allBackups w) as [[all|err] w']; cbn in *; [by right | by left].
Qed.

(** [addBackup] leaves a backup in every bucket, today's among them. *)
Lemma addBackup_buckets_ok clk backup (b : t) :
  nonempty_buckets (backups b) → buckets_ok (backups (addBackup clk backup b)).
Proof.
  intros Hbuckets. split.
  - intros Hempty. pose proof (pushToday_lookup_today clk backup
      (dropOldestDay (backups b))) as Htoday.
    cbn in Hempty. by rewrite Hempty, lookup_empty in Htoday.
  - intros d l. cbn. destruct (decide (d = todayTs clk)) as [->|Hne].
    + rewrite pushToday_lookup_today. intros [= <-].
      destruct (dropOldestDay (backups b) !! todayTs clk) as [l0|];
        [case_decide|]; try done; by intros [_ [=]]%app_nil.
    + rewrite pushToday_lookup_other by done.
      intros Hl%dropOldestDay_lookup_Some. by eapply Hbuckets.
Qed.

Lemma loaded_nonempty_buckets path w e :
  store_ok w → nonempty_buckets (backups (loadedBackups path w e)).
Proof.
  intros Hok. unfold loadedBackups. destruct (idb w !! path) as [s|] eqn:Hs.
  - by apply loaded_buckets_ok, (Hok path).
  - intros d l. cbn. by rewrite lookup_empty.
Qed.

Lemma store_ok_insert w path (b : t) e :
  store_ok w → buckets_ok (backups b) →
  store_ok (mkWorld _ (<[path := Stored.freeze (toI b)]> (idb w)) e).
Proof.
  intros Hok Hb p s. cbn. destruct (decide (p = path)) as [->|Hne].
  - rewrite lookup_insert_eq. intros [= <-]. by apply frozen_buckets_ok.
  - rewrite lookup_insert_ne by done. apply Hok.
Qed.

(** On a store whose buckets all hold a backup, [updateNb] on a path with
    an entry resolves: it appends to the update log of the latest backup
    and writes the result. *)
Lemma updateNb_on_entry clk path upd w s :
  store_ok w → idb w !! path = Some s →
  ∃ day bucket latest,
    let loaded := fromI (Stored.revive (next_epoch w) s) in
    let b2 := mk (Stored.bpath s)
                (<[day := bucket ++ [Backup.addUpdate clk upd latest]]> (backups loaded)) in
    latestBackup clk loaded = Some latest
    ∧ latestBackup clk b2 = Some (Backup.addUpdate clk upd latest)
    ∧ buckets_ok (backups b2)
    ∧ ClientBackup.updateNb clk path upd w
      = (Resolved b2,
         mkWorld _ (<[path := Stored.freeze (toI b2)]> (idb w)) (S (next_epoch w))).
Proof.
  intros Hok Hs.
  pose proof (loaded_buckets_ok (next_epoch w) s (Hok _ _ Hs)) as Hloaded.
  destruct (latest_of_buckets_ok clk _ Hloaded) as (day & bucket & latest & Hday & Hb & Hl).
  exists day, bucket, latest. cbn zeta. split; [exact Hl|]. split; [|split].
  - by eapply latestBackup_after_replace.
  - destruct Hloaded as [_ Hbuckets]. split.
    + cbn. intros Hempty. apply (f_equal (lookup day)) in Hempty.
      by rewrite lookup_insert_eq, lookup_empty in Hempty.
    + intros d l. cbn -[fromI]. destruct (decide (d = day)) as [->|Hne].
      * rewrite lookup_insert_eq. intros [= <-]. by destruct bucket.
      * rewrite lookup_insert_ne by done. apply Hbuckets.
  - rewrite updateNb_run, Hs. by rewrite (addUpdate_latest _ _ _ _ _ _ Hday Hb Hl).
Qed.

Lemma reachable_store_ok w : reachable w → store_ok w.
Proof.
  induction 1 as [e|w clk path cells config _ IH|w clk path upd _ IH
                  |w path _ IH|w _ IH|w _ IH].
  - intros p s. cbn. by rewrite lookup_empty.
  - rewrite addNb_run. cbn. apply store_ok_insert; [done|].
    by apply addBackup_buckets_ok, loaded_nonempty_buckets.
  - destruct (idb w !! path) as [s|] eqn:Hs.
    + destruct (updateNb_on_entry clk path upd w s IH Hs)
        as (day & bucket & latest & _ & _ & Hb2 & ->). cbn.
      by apply store_ok_insert.
    + rewrite updateNb_run, Hs. exact IH.
  - rewrite getBackups_run. exact IH.
  - intros p s. rewrite allBackups_idb. apply IH.
  - intros p s. destruct (clearBackups_idb w) as [->| ->]; [apply IH|].
    by rewrite lookup_empty.
Qed.
End ClientBackupFacts.

Section ClientBackupClaims.
Context `{DataTypes}.
Import Backups.

Lemma freeze_reviveBackup e d i (b : Stored.Backup) :
  Stored.freezeBackup (Stored.reviveBackup e d i b) = b.
Proof. destruct b as [p cs [cfg|] ts us]; reflexivity. Qed.

(** A clone read from the store holds what the store holds. *)
Lemma freeze_revive e (s : Stored.Backups) : Stored.freeze (Stored.revive e s) = s.
Proof.
  destruct s as [p bs]. unfold Stored.freeze, Stored.revive. cbn. f_equal.
  apply map_eq. intros d. rewrite lookup_fmap, map_lookup_imap.
  destruct (bs !! d) as [l|]; [|done]. cbn. f_equal.
  rewrite fmap_imap. rewrite <- (list_fmap_id l) at 2. rewrite <- imap_const.
  apply imap_ext. intros i b _. apply freeze_reviveBackup.
Qed.

(** The latest backup of a backups object that was written and read back
    is the latest backup that was written, with the same update log. *)
Lemma latestBackup_reloaded clk e (b : t) x :
  latestBackup clk (fromI (Stored.revive e (Stored.freeze (toI b)))) = Some x →
  ∃ x1, latestBackup clk b = Some x1
        ∧ val (Backup.updates x) = val (Backup.updates x1).
Proof.
  unfold latestBackup. rewrite reloaded_lookup.
  destruct (backups b !! todayTs clk) as [l|] eqn:Htoday; cbn -[fromI].
  - rewrite last_imap. destruct (last l) as [x1|]; [|done].
    intros [= <-]. by exists x1.
  - rewrite (math_max_keys_same_dom _ (backups b)).
    + destruct (math_max (object_keys (backups b))) as [day|]; [|done].
      rewrite reloaded_lookup. destruct (backups b !! day) as [l|]; [|done].
      cbn. rewrite last_imap. destruct (last l) as [x1|]; [|done].
      intros [= <-]. by exists x1.
    + intros k. rewrite reloaded_lookup. by rewrite fmap_is_Some.
Qed.

(** C7: on every store reached through the backup interface,
    [updateNb(path, upd)] and [getBackups(path)] are rejected exactly when
    the store has no entry for [path], and what [getBackups] resolves to is
    the stored entry itself; after an [addNb(path, cells)], which always
    resolves, the same [updateNb] resolves, and the update log of the latest
    backup is the log it had after [addNb] with one entry added at the
    end. *)
Theorem C7_NotFound_iff_no_entry w clk path upd :
  reachable w →
  (rejected (ClientBackup.updateNb clk path upd w).1 ↔ idb w !! path = None)
  ∧ (rejected (ClientBackup.getBackups path w).1 ↔ idb w !! path = None)
  ∧ (∀ i, (ClientBackup.getBackups path w).1 = Resolved i →
          idb w !! path = Some (Stored.freeze i))
  ∧ ∀ clk0 cells config,
      ∃ b1 w1 b2 w2 latest1 latest2,
        ClientBackup.addNb clk0 path cells config w = (Resolved b1, w1)
        ∧ ClientBackup.updateNb clk path upd w1 = (Resolved b2, w2)
        ∧ latestBackup clk b1 = Some latest1
        ∧ latestBackup clk b2 = Some latest2
        ∧ val (Backup.updates latest2)
          = val (Backup.updates latest1) ++ [(now clk, upd)]
        ∧ idb w2 !! path = Some (Stored.freeze (toI b2)).
Proof.
  intros Hreach. pose proof (reachable_store_ok w Hreach) as Hok.
  split; [|split; [|split]].
  - destruct (idb w !! path) as [s|] eqn:Hs.
    + destruct (updateNb_on_entry clk path upd w s Hok Hs)
        as (day & bucket & latest & _ & _ & _ & ->).
      split; [by intros [err ?] | done].
    + rewrite updateNb_run, Hs. split; [done | by eexists].
  - rewrite getBackups_run. destruct (idb w !! path) as [s|].
    + split; [by intros [err ?] | done].
    + split; [done | by eexists].
  - intros i. rewrite getBackups_run. destruct (idb w !! path) as [s|]; [|done].
    cbn. intros [= <-]. by rewrite freeze_revive.
  - intros clk0 cells config.
    pose proof (reachable_store_ok _ (reachable_addNb w clk0 path cells config Hreach))
      as Hok1.
    pose proof (addNb_run clk0 path cells config w) as Hrun. cbn zeta in Hrun.
    rewrite Hrun in Hok1. cbn [snd] in Hok1.
    set (b1 := addBackup clk0 _ _) in *. set (w1 := mkWorld _ _ _) in *.
    assert (Hs1 : idb w1 !! path = Some (Stored.freeze (toI b1)))
      by apply lookup_insert_eq.
    destruct (updateNb_on_entry clk path upd w1 _ Hok1 Hs1)
      as (day & bucket & latest & Hlatest & Hlatest2 & _ & Hupd).
    destruct (latestBackup_reloaded _ _ _ _ Hlatest) as (latest1 & Hlatest1 & Hlog).
    eexists b1, w1, _, _, latest1, _.
    split; [exact Hrun|]. split; [exact Hupd|]. split; [exact Hlatest1|].
    split; [exact Hlatest2|]. split.
    + cbn. by rewrite Hlog.
    + cbn. apply lookup_insert_eq.
Qed.
End ClientBackupClaims.

(** C4 fails on the code: [addNb] called twice in the same millisecond for
    the same path with the same cells and no config stores two backups of
    equal content; [allBackups()] reports one backup after the first call and
    two after the second. *)
Theorem C4_equal_content_is_stored_again :
  let clk := Examples.onDay 0 in
  let w1 := (ClientBackup.addNb clk "nb" [Examples.oneCell] None Examples.emptyWorld).2 in
  let w2 := (ClientBackup.addNb clk "nb" [Examples.oneCell] None w1).2 in
  Examples.reportedCount "nb" w1 = Some 1%nat
  ∧ Examples.reportedCount "nb" w2 = Some 2%nat
  ∧ ∃ b, Stored.backups <$> idb w2 !! "nb" = Some {[ todayTs clk := [b; b] ]}.
Proof.
  split; [vm_compute; reflexivity|]. split; [vm_compute; reflexivity|].
  eexists. vm_compute. reflexivity.
Qed.

Lemma C7_NotFound_iff_no_entry_witness :
  let w := Examples.emptyWorld in
  let clk := Examples.onDay 0 in
  let upd := messages.DeleteCell 0 1 0 in
  rejected (ClientBackup.updateNb clk "nb" upd w).1
  ∧ ¬ rejected
        (ClientBackup.updateNb clk "nb" upd
           (ClientBackup.addNb clk "nb" [Examples.oneCell] None w).2).1.
Proof.
  intros w clk upd.
  assert (Hreach : reachable w) by apply reachable_empty.
  destruct (C7_NotFound_iff_no_entry w clk "nb" upd Hreach) as (Hupd & _ & _ & Hafter).
  split.
  - apply Hupd. reflexivity.
  - destruct (Hafter clk [Examples.oneCell] None)
      as (b1 & w1 & b2 & w2 & l1 & l2 & Hadd & Hrun & _).
    rewrite Hadd. cbn [snd]. rewrite Hrun. intros [err Herr]. discriminate Herr.
Defined.

(** * More of the backup store *)

Section BackupsMore.
Context `{DataTypes}.
Import Backups.

Lemma foldl_addBackup_bounds (steps : list (Clock * Backup.t)) (b0 : t) :
  (size (backups b0) ≤ S BACKUPS_PER_NOTEBOOK)%nat →
  (∀ d l, backups b0 !! d = Some l → (1 ≤ length l ≤ BACKUPS_PER_DAY)%nat) →
  let b := foldl (λ acc step, addBackup step.1 step.2 acc) b0 steps in
  (size (backups b) ≤ S BACKUPS_PER_NOTEBOOK)%nat
  ∧ ∀ d l, backups b !! d = Some l → (1 ≤ length l ≤ BACKUPS_PER_DAY)%nat.
Proof.
  revert b0. induction steps as [|[clk x] steps IH]; intros b0 Hsize Hlen; [done|].
  cbn. apply IH.
  - by apply addBackup_keeps_bounds; [|intros d l Hl; apply (Hlen d l Hl)].
  - intros d l Hl. split.
    + assert (Hne : nonempty_buckets (backups b0)).
      { intros d' l' Hl' ->. specialize (Hlen _ _ Hl'). cbn in Hlen. lia. }
      destruct (addBackup_buckets_ok clk x b0 Hne) as [_ Hbuckets].
      specialize (Hbuckets d l Hl). destruct l; [done | cbn; lia].
    + eapply addBackup_keeps_bounds; [exact Hsize | | exact Hl].
      intros d' l' Hl'. apply (Hlen d' l' Hl').
Qed.

(** X1: whatever backups are added to a new container, on whatever days, it
    never holds more than [BACKUPS_PER_NOTEBOOK + 1] day buckets, and every
    bucket holds at least one and at most [BACKUPS_PER_DAY] backups. *)
Theorem X1_addBackup_retention_bounds (steps : list (Clock * Backup.t)) (p : string) :
  let b := foldl (λ acc step, addBackup step.1 step.2 acc) (Backups.new p) steps in
  (size (backups b) ≤ S BACKUPS_PER_NOTEBOOK)%nat
  ∧ ∀ d l, backups b !! d = Some l → (1 ≤ length l ≤ BACKUPS_PER_DAY)%nat.
Proof.
  apply foldl_addBackup_bounds.
  - cbn. rewrite map_size_empty. lia.
  - intros d l. cbn. by rewrite lookup_empty.
Qed.

Lemma addBackup_today_last clk backup (b : t) :
  ∃ bucket, backups (addBackup clk backup b) !! todayTs clk = Some (bucket ++ [backup]).
Proof.
  cbn. rewrite pushToday_lookup_today.
  destruct (dropOldestDay (backups b) !! todayTs clk) as [l|].
  - case_decide; by eexists.
  - by exists [].
Qed.

(** X2: the backup just added is the last entry of today's bucket, and it is
    the latest backup as long as it is the same day. *)
Theorem X2_addBackup_is_latest clk clk' backup (b : t) :
  todayTs clk' = todayTs clk →
  latestBackup clk' (addBackup clk backup b) = Some backup
  ∧ ∃ bucket, backups (addBackup clk backup b) !! todayTs clk = Some (bucket ++ [backup]).
Proof.
  intros Hday. destruct (addBackup_today_last clk backup b) as [bucket Hbucket].
  split; [|by exists bucket].
  unfold latestBackup. rewrite Hday, Hbucket. apply last_snoc.
Qed.


(** X4: the latest backup is the last entry of today's bucket when there is
    one, whatever other days hold, and otherwise the last entry of the
    bucket of the numerically largest day. *)
Theorem X4_latestBackup_choice clk (b : t) x :
  latestBackup clk b = Some x →
  ∃ day l,
    backups b !! day = Some l ∧ last l = Some x
    ∧ (day = todayTs clk
       ∨ (backups b !! todayTs clk = None
          ∧ ∀ d', is_Some (backups b !! d') → d' ≤ day)).
Proof.
  unfold latestBackup. destruct (backups b !! todayTs clk) as [l|] eqn:Htoday.
  - intros Hlast. exists (todayTs clk), l. by repeat split; [..|left].
  - destruct (math_max (object_keys (backups b))) as [day|] eqn:Hmax; [|done].
    destruct (backups b !! day) as [l|] eqn:Hday; [|done].
    intros Hlast. exists day, l. split; [done|]. split; [done|]. right.
    split; [done|]. by apply math_max_keys in Hmax as [_ Hall].
Qed.

Lemma latestBackup_Some_bucket clk (b : t) latest :
  latestBackup clk b = Some latest →
  ∃ day bucket,
    latestDay clk b = Some day ∧ backups b !! day = Some (bucket ++ [latest]).
Proof.
  unfold latestBackup, latestDay.
  destruct (backups b !! todayTs clk) as [l|] eqn:Htoday.
  - intros [bucket ->]%last_Some. by exists (todayTs clk), bucket.
  - destruct (math_max (object_keys (backups b))) as [day|]; [|done].
    destruct (backups b !! day) as [l|] eqn:Hday; [|done].
    intros [bucket ->]%last_Some. by exists day, bucket.
Qed.

(** X5: [Backups.addUpdate] throws exactly when there is no latest backup.
    Otherwise the latest backup stays the latest one, with the entry
    [{ts: now, upd}] added at the end of its update log and nothing else of
    it changed, and every bucket keeps its number of backups. *)
Theorem X5_Backups_addUpdate_effect clk upd (b : t) :
  match addUpdate clk upd b with
  | inl _ => latestBackup clk b = None
  | inr b' =>
      ∃ latest latest',
        latestBackup clk b = Some latest
        ∧ latestBackup clk b' = Some latest'
        ∧ val (Backup.updates latest') = val (Backup.updates latest) ++ [(now clk, upd)]
        ∧ Backup.cells latest' = Backup.cells latest
        ∧ Backup.config latest' = Backup.config latest
        ∧ Backup.ts latest' = Backup.ts latest
        ∧ path b' = path b
        ∧ ∀ d, length <$> backups b' !! d = length <$> backups b !! d
  end.
Proof.
  destruct (latestBackup clk b) as [latest|] eqn:Hlatest.
  - destruct (latestBackup_Some_bucket _ _ _ Hlatest) as (day & bucket & Hday & Hbucket).
    rewrite (addUpdate_latest _ _ _ _ _ _ Hday Hbucket Hlatest).
    exists latest, (Backup.addUpdate clk upd latest). split; [done|]. split.
    { by eapply latestBackup_after_replace. }
    do 5 (split; [done|]). intros d. cbn. destruct (decide (d = day)) as [->|Hne].
    + rewrite lookup_insert_eq, Hbucket. cbn. by rewrite !length_app.
    + by rewrite lookup_insert_ne.
  - destruct (addUpdate clk upd b) as [err|b'] eqn:Hupd; [done|].
    assert (Hthrows : ∃ err, addUpdate clk upd b = inl err)
      by by apply addUpdate_throws_iff.
    destruct Hthrows as [err Herr]. congruence.
Qed.
End BackupsMore.

Section ClientBackupMore.
Context `{DataTypes}.
Import Backups.

Lemma size_same_keys {A B} (m : gmap Z A) (m' : gmap Z B) :
  (∀ d, is_Some (m' !! d) ↔ is_Some (m !! d)) → size m' = size m.
Proof.
  intros Hkeys. rewrite <- !(size_dom (D := gset Z)). f_equal.
  apply set_eq. intros d. by rewrite !elem_of_dom.
Qed.

Lemma loaded_size e (s : Stored.Backups) :
  size (backups (fromI (Stored.revive e s))) = size (Stored.backups s).
Proof.
  apply size_same_keys. intros d. by rewrite loaded_lookup, fmap_is_Some.
Qed.

Lemma frozen_size (b : t) :
  size (Stored.backups (Stored.freeze (toI b))) = size (backups b).
Proof.
  apply size_same_keys. intros d. by rewrite frozen_lookup, fmap_is_Some.
Qed.

Lemma entry_ok_loaded p e (s : Stored.Backups) :
  entry_ok p s → loaded_ok p (fromI (Stored.revive e s)).
Proof.
  intros (Hpath & Hsize & Hbuckets). split; [done|]. split.
  - rewrite loaded_size. lia.
  - intros d l. rewrite loaded_lookup.
    destruct (Stored.backups s !! d) as [l0|] eqn:Hl0; [|done]. intros [= <-].
    destruct (Hbuckets d l0 Hl0) as [Hlen Hall]. split.
    + by rewrite length_fmap, length_imap.
    + apply Forall_fmap, Forall_lookup. intros i y. rewrite list_lookup_imap.
      destruct (l0 !! i) as [sb|] eqn:Hsb; [|done]. intros [= <-]. cbn.
      rewrite Forall_lookup in Hall. specialize (Hall i sb Hsb).
      by destruct sb as [? ? [?|] ? ?].
Qed.

Lemma loaded_ok_frozen p (b : t) :
  loaded_ok p b → backups b ≠ ∅ → entry_ok p (Stored.freeze (toI b)).
Proof.
  intros (Hpath & Hsize & Hbuckets) Hne. split; [done|]. split.
  - rewrite frozen_size. apply map_size_non_empty_iff in Hne. lia.
  - intros d l. rewrite frozen_lookup.
    destruct (backups b !! d) as [l0|] eqn:Hl0; [|done]. intros [= <-].
    destruct (Hbuckets d l0 Hl0) as [Hlen Hall]. split.
    + by rewrite length_fmap.
    + by apply Forall_fmap.
Qed.

Lemma loaded_ok_new p : loaded_ok p (Backups.new p).
Proof.
  split; [done|]. split.
  - cbn. rewrite map_size_empty. lia.
  - intros d l. cbn. by rewrite lookup_empty.
Qed.

Lemma loaded_ok_addBackup p clk backup (b : t) :
  loaded_ok p b →
  backup_ok p (Stored.freezeBackup (Backup.asI backup)) →
  loaded_ok p (addBackup clk backup b).
Proof.
  intros (Hpath & Hsize & Hbuckets) Hbackup.
  destruct (addBackup_keeps_bounds clk backup b Hsize) as [Hsize' Hlen'].
  { intros d l Hl. by apply Hbuckets in Hl as [[_ ?] _]. }
  assert (Hne : nonempty_buckets (backups b)).
  { intros d l Hl ->. apply Hbuckets in Hl as [[Hl _] _]. cbn in Hl. lia. }
  destruct (addBackup_buckets_ok clk backup b Hne) as [_ Hne'].
  split; [done|]. split; [done|]. intros d l Hl. split.
  - split; [|by eapply Hlen'].
    specialize (Hne' d l Hl). destruct l; [done | cbn; lia].
  - cbn in Hl. destruct (decide (d = todayTs clk)) as [->|Hd].
    + rewrite pushToday_lookup_today in Hl. injection Hl as <-.
      destruct (dropOldestDay (backups b) !! todayTs clk) as [l0|] eqn:Hl0.
      * apply dropOldestDay_lookup_Some, Hbuckets in Hl0 as [_ Hall].
        case_decide; apply Forall_app; split; try by apply Forall_singleton.
        -- done.
        -- destruct l0; [done | by apply Forall_cons in Hall as [_ ?]].
      * by apply Forall_singleton.
    + rewrite pushToday_lookup_other in Hl by done.
      by apply dropOldestDay_lookup_Some, Hbuckets in Hl as [_ ?].
Qed.

Lemma builtBackup_ok clk p cells config e :
  backup_ok p (Stored.freezeBackup (Backup.asI (builtBackup clk p cells config e))).
Proof.
  split; [done|]. cbn. induction cells as [|c cells IH]; cbn; by constructor.
Qed.

(** The invariant of the store: see X11. *)
Lemma reachable_entries_ok w :
  reachable w → ∀ p s, idb w !! p = Some s → entry_ok p s.
Proof.
  induction 1 as [e|w clk path cells config Hreach IH|w clk path upd Hreach IH
                  |w path _ IH|w _ IH|w _ IH]; intros p s.
  - cbn. by rewrite lookup_empty.
  - rewrite addNb_run. cbn. destruct (decide (p = path)) as [->|Hne].
    + rewrite lookup_insert_eq. intros [= <-]. apply loaded_ok_frozen.
      * apply loaded_ok_addBackup; [|apply builtBackup_ok].
        unfold loadedBackups. destruct (idb w !! path) as [s|] eqn:Hs.
        -- by apply entry_ok_loaded, IH.
        -- apply loaded_ok_new.
      * eapply addBackup_buckets_ok, loaded_nonempty_buckets.
        by apply reachable_store_ok.
    + rewrite lookup_insert_ne by done. apply IH.
  - destruct (idb w !! path) as [s0|] eqn:Hs0.
    + pose proof (reachable_store_ok w Hreach) as Hok.
      pose proof (entry_ok_loaded path (next_epoch w) s0 (IH _ _ Hs0))
        as (Hpath & Hsize & Hbuckets).
      pose proof (loaded_buckets_ok (next_epoch w) s0 (Hok _ _ Hs0)) as Hloaded.
      destruct (latest_of_buckets_ok clk _ Hloaded)
        as (day & bucket & latest & Hday & Hb & Hl).
      rewrite updateNb_run, Hs0, (addUpdate_latest _ _ _ _ _ _ Hday Hb Hl). cbn -[fromI].
      destruct (decide (p = path)) as [->|Hne].
      * rewrite lookup_insert_eq. intros [= <-]. apply loaded_ok_frozen.
        -- split; [done|]. split.
           ++ cbn -[fromI]. rewrite map_size_insert_Some; [done | by eexists].
           ++ intros d l. cbn -[fromI]. destruct (decide (d = day)) as [->|Hd].
              ** rewrite lookup_insert_eq. intros [= <-].
                 destruct (Hbuckets day _ Hb) as [Hlen Hall]. split.
                 --- by rewrite length_app in *.
                 --- apply Forall_app in Hall as [Hall Hlatest].
                     apply Forall_app. split; [done|].
                     apply Forall_singleton.
                     apply Forall_singleton in Hlatest as [Hp Hcells]. by split.
              ** rewrite lookup_insert_ne by done. apply Hbuckets.
        -- cbn -[fromI]. intros Hempty. apply (f_equal (lookup day)) in Hempty.
           by rewrite lookup_insert_eq, lookup_empty in Hempty.
      * rewrite lookup_insert_ne by done. apply IH.
    + rewrite updateNb_run, Hs0. apply IH.
  - rewrite getBackups_run. apply IH.
  - rewrite allBackups_idb. apply IH.
  - destruct (clearBackups_idb w) as [->| ->]; [apply IH|]. by rewrite lookup_empty.
Qed.
End ClientBackupMore.

Section ClientBackupExtras.
Context `{DataTypes}.
Import Backups.

(** X6: [addNb] always resolves, and a [getBackups] for the same path right
    after it resolves to the backups [addNb] returned, content for content;
    the read leaves the store as it is. *)
Theorem X6_getBackups_after_addNb clk p cells config w :
  ∃ b1 w1 i w2,
    ClientBackup.addNb clk p cells config w = (Resolved b1, w1)
    ∧ ClientBackup.getBackups p w1 = (Resolved i, w2)
    ∧ Stored.freeze i = Stored.freeze (toI b1)
    ∧ idb w2 = idb w1.
Proof.
  pose proof (addNb_run clk p cells config w) as Hrun. cbn zeta in Hrun.
  eexists _, _, _, _. split; [exact Hrun|]. rewrite getBackups_run. cbn.
  rewrite lookup_insert_eq. split; [reflexivity|]. split; [|reflexivity].
  apply freeze_revive.
Qed.

(** X7: the backup [addNb] stores is the latest one of the path: it has the
    path, the time of the call, an empty update log, the config it was given
    and the cells it was given with their results emptied and everything
    else of them kept. *)
Theorem X7_addNb_stores_cleared_cells clk p cells config w :
  ∃ b1 w1 latest,
    ClientBackup.addNb clk p cells config w = (Resolved b1, w1)
    ∧ idb w1 !! p = Some (Stored.freeze (toI b1))
    ∧ latestBackup clk b1 = Some latest
    ∧ Backup.path latest = p
    ∧ Backup.ts latest = now clk
    ∧ val (Backup.updates latest) = []
    ∧ Backup.config latest = config
    ∧ length (val (Backup.cells latest)) = length cells
    ∧ ∀ i c, cells !! i = Some c →
        ∃ c', val (Backup.cells latest) !! i = Some c'
              ∧ NotebookCell.results c' = []
              ∧ NotebookCell.id c' = NotebookCell.id c
              ∧ NotebookCell.language c' = NotebookCell.language c
              ∧ NotebookCell.content c' = NotebookCell.content c
              ∧ NotebookCell.metadata c' = NotebookCell.metadata c
              ∧ NotebookCell.comments c' = NotebookCell.comments c.
Proof.
  pose proof (addNb_run clk p cells config w) as Hrun. cbn zeta in Hrun.
  eexists _, _, _. split; [exact Hrun|]. split; [apply lookup_insert_eq|].
  split.
  { unfold latestBackup.
    destruct (addBackup_today_last clk (builtBackup clk p cells config (next_epoch w))
                (loadedBackups p w (S (S (next_epoch w))))) as [bucket ->].
    apply last_snoc. }
  do 4 (split; [reflexivity|]). cbn. split; [apply length_map|].
  intros i c Hc. exists (ClientBackup.clearCell c). split; [|done].
  change (map ClientBackup.clearCell cells) with (ClientBackup.clearCell <$> cells).
  by rewrite list_lookup_fmap, Hc.
Qed.

(** X8: [addNb] and [updateNb] change no entry of the store but the one of
    their path, resolved or rejected. *)
Theorem X8_other_paths_untouched clk path p cells config upd w :
  p ≠ path →
  idb (ClientBackup.addNb clk path cells config w).2 !! p = idb w !! p
  ∧ idb (ClientBackup.updateNb clk path upd w).2 !! p = idb w !! p.
Proof.
  intros Hne. split.
  - rewrite addNb_run. cbn. by rewrite lookup_insert_ne.
  - rewrite updateNb_run. destruct (idb w !! path) as [s|]; [|done].
    destruct (addUpdate clk upd _); cbn; [done|]. by rewrite lookup_insert_ne.
Qed.

Lemma collectBackups_complete ks (acc : gmap string IBackups.t) w :
  (∀ k, k ∈ ks → is_Some (idb w !! k)) →
  ∃ all w',
    ClientBackup.collectBackups ks acc w = (Resolved all, w')
    ∧ idb w' = idb w
    ∧ ∀ k, Stored.freeze <$> all !! k
           = if decide (k ∈ ks) then idb w !! k else Stored.freeze <$> acc !! k.
Proof.
  revert acc w. induction ks as [|k0 ks IH]; intros acc w Hks.
  - exists acc, w. split; [done|]. split; [done|]. intros k.
    rewrite decide_False; [done|]. apply not_elem_of_nil.
  - destruct (Hks k0) as [s Hs]; [by left|].
    cbn. unfold andThen. rewrite getBackups_run, Hs.
    destruct (IH (<[k0 := Stored.revive (next_epoch w) s]> acc)
                (mkWorld _ (idb w) (S (next_epoch w)))) as (all & w' & Hrun & Hidb & Hall).
    { intros k Hk. cbn. apply Hks. by right. }
    exists all, w'. split; [exact Hrun|]. split; [exact Hidb|]. intros k.
    rewrite Hall. cbn. destruct (decide (k ∈ ks)) as [Hin|Hnin].
    + rewrite decide_True; [done | by right].
    + destruct (decide (k = k0)) as [->|Hne].
      * rewrite decide_True by by left. rewrite lookup_insert_eq. cbn.
        by rewrite freeze_revive.
      * rewrite decide_False by (intros [?|?]%elem_of_cons; done).
        by rewrite lookup_insert_ne.
Qed.

Lemma allBackups_complete w :
  ∃ all w',
    ClientBackup.allBackups w = (Resolved all, w')
    ∧ idb w' = idb w
    ∧ ∀ k, Stored.freeze <$> all !! k = idb w !! k.
Proof.
  unfold ClientBackup.allBackups, andThen, keys. cbn.
  destruct (collectBackups_complete (map_to_list (idb w)).*1 ∅ w)
    as (all & w' & Hrun & Hidb & Hall).
  { intros k ([k' s] & -> & Hin)%list_elem_of_fmap.
    apply elem_of_map_to_list in Hin. by exists s. }
  exists all, w'. split; [exact Hrun|]. split; [exact Hidb|]. intros k.
  rewrite Hall. case_decide as Hin; [done|]. rewrite lookup_empty. cbn.
  symmetry. apply eq_None_not_Some. intros [s Hs]. apply Hin.
  apply list_elem_of_fmap. exists (k, s). split; [done|]. by apply elem_of_map_to_list.
Qed.

(** X9: on any store, [allBackups] resolves; its result has an entry for
    exactly the paths the store has one for, each with the content stored,
    and the store is left as it is. *)
Theorem X9_allBackups_returns_the_store w :
  ∃ all w',
    ClientBackup.allBackups w = (Resolved all, w')
    ∧ idb w' = idb w
    ∧ ∀ k, Stored.freeze <$> all !! k = idb w !! k.
Proof. apply allBackups_complete. Qed.

(** X10: on any store, [clearBackups] resolves to what the store held, path
    for path, and leaves the store empty: every [getBackups] after it is
    rejected. *)
Theorem X10_clearBackups_returns_and_empties w :
  ∃ all w',
    ClientBackup.clearBackups w = (Resolved all, w')
    ∧ (∀ k, Stored.freeze <$> all !! k = idb w !! k)
    ∧ idb w' = ∅
    ∧ ∀ p, rejected (ClientBackup.getBackups p w').1.
Proof.
  destruct (allBackups_complete w) as (all & w1 & Hrun & Hidb & Hall).
  exists all, (mkWorld _ ∅ (next_epoch w1)).
  unfold ClientBackup.clearBackups, andThen. rewrite Hrun.
  cbn -[ClientBackup.getBackups].
  split; [done|]. split; [done|]. split; [done|]. intros p.
  rewrite getBackups_run. cbn. rewrite lookup_empty. by eexists.
Qed.

(** X11: in every store reached from an empty one through [ClientBackup],
    the entry under a path is filed under that path, has at least one and at
    most [BACKUPS_PER_NOTEBOOK + 1] day buckets, each with at least one and at
    most [BACKUPS_PER_DAY] backups, and every backup in it has that path and
    cells without results. *)
Theorem X11_reachable_store_invariant w p s :
  reachable w →
  idb w !! p = Some s →
  Stored.bpath s = p
  ∧ (1 ≤ size (Stored.backups s) ≤ S BACKUPS_PER_NOTEBOOK)%nat
  ∧ ∀ d l, Stored.backups s !! d = Some l →
      (1 ≤ length l ≤ BACKUPS_PER_DAY)%nat
      ∧ ∀ b, b ∈ l →
          Stored.path b = p
          ∧ ∀ c, c ∈ Stored.cells b → NotebookCell.results c = [].
Proof.
  intros Hreach Hs. destruct (reachable_entries_ok w Hreach p s Hs)
    as (Hpath & Hsize & Hbuckets).
  split; [done|]. split; [done|]. intros d l Hl.
  destruct (Hbuckets d l Hl) as [Hlen Hall]. split; [done|]. intros b Hb.
  rewrite Forall_forall in Hall. destruct (Hall b Hb) as [Hp Hcells].
  split; [done|]. intros c Hc. rewrite Forall_forall in Hcells. by apply Hcells.
Qed.
End ClientBackupExtras.

(** * More of the notebook dispatcher *)

Section DispatcherMore.
Context `{DataTypes}.
Import Dispatcher.
Variable confirm : string → bool.

Lemma map_id_preserved (f : CellState → CellState) (cs : list CellState) :
  (∀ c, id (f c) = id c) → map id (map f cs) = map id cs.
Proof. intros Hf. rewrite map_map. apply map_ext. exact Hf. Qed.

(** X12: no dispatch changes the path, the config or the global version of
    the notebook state, and none adds, removes or reorders cells: the ids of
    the cells are the same list after as before. *)
Theorem X12_dispatch_keeps_notebook_shape a s :
  let s' := (dispatch confirm a s).1 in
  path s' = path s
  ∧ config s' = config s
  ∧ globalVersion s' = globalVersion s
  ∧ map id (cells s') = map id (cells s).
Proof.
  destruct a; cbn; try done;
    try (repeat split; apply map_id_preserved; intros c; try case_bool_decide; done).
  destruct command; cbn; [done|]. by destruct (confirm _).
Qed.

(** X13: after any run of dispatches the local version is the one before
    plus the number of [DeleteCell] and [UpdateConfig] dispatches in the
    run; it never goes down. *)
Theorem X13_localVersion_counts_stored_edits actions s :
  localVersion (dispatchAll confirm actions s).1
  = localVersion s + Z.of_nat (length (List.filter storesVersion actions)).
Proof.
  revert s. induction actions as [|a actions IH]; intros s.
  - cbn. lia.
  - cbn [dispatchAll List.filter]. rewrite bind_fst, IH, dispatch_localVersion.
    destruct a; cbn; lia.
Qed.

Lemma sent_app (es1 es2 : list Effect) : sent (es1 ++ es2) = sent es1 ++ sent es2.
Proof. unfold sent. apply omap_app. Qed.

Lemma dispatch_buffer a s :
  (editBuffer (dispatch confirm a s).1).*2
  = (editBuffer s).*2 ++ List.filter isContentUpdate (sent (dispatch confirm a s).2).
Proof.
  destruct a; cbn; rewrite ?app_nil_r; try done;
    try (unfold EditBuffer_push; by rewrite fmap_app).
  - destruct command; cbn; [by rewrite app_nil_r|].
    destruct (confirm _); cbn; by rewrite app_nil_r.
  - destruct (activeCompletion s); cbn; by rewrite app_nil_r.
  - destruct (activeSignature s); cbn; by rewrite app_nil_r.
Qed.

(** X14: the edit buffer only grows at its end, and what a run of dispatches
    adds to it is exactly the content updates ([InsertCell], [UpdateCell],
    [DeleteCell], [UpdateConfig]) the run sent, in the order sent. *)
Theorem X14_editBuffer_holds_sent_updates actions s :
  let r := dispatchAll confirm actions s in
  (editBuffer r.1).*2 = (editBuffer s).*2 ++ List.filter isContentUpdate (sent r.2).
Proof.
  revert s. induction actions as [|a actions IH]; intros s.
  - cbn. by rewrite app_nil_r.
  - cbn [dispatchAll]. cbn zeta in *. rewrite bind_fst, bind_snd, IH, dispatch_buffer.
    by rewrite sent_app, List.filter_app, app_assoc.
Qed.
End DispatcherMore.

Section DispatcherCells.
Context `{DataTypes}.
Import Dispatcher.
Variable confirm : string → bool.

(** X15: [UpdateCell] sends one [UpdateCell] message with the next local
    version and changes the local cells at once: every cell with the given id
    gets the new content and the new metadata, each only if it was given;
    everything else of these cells, and every other cell, stays as it
    was. *)
Theorem X15_UpdateCell_edits_matching_cells cellId edits newContent md s :
  let r := dispatch confirm (UpdateCell cellId edits newContent md) s in
  r.2 = [Send (messages.UpdateCell (globalVersion s) (localVersion s + 1) cellId edits md)]
  ∧ length (cells r.1) = length (cells s)
  ∧ ∀ i c, cells s !! i = Some c →
      ∃ c', cells r.1 !! i = Some c'
            ∧ content c' = (if bool_decide (id c = cellId)
                            then default (content c) newContent else content c)
            ∧ metadata c' = (if bool_decide (id c = cellId)
                             then default (metadata c) md else metadata c)
            ∧ id c' = id c ∧ language c' = language c ∧ comments c' = comments c
            ∧ queued c' = queued c ∧ results c' = results c ∧ error c' = error c
            ∧ selected c' = selected c ∧ currentSelection c' = currentSelection c
            ∧ pendingEdits c' = pendingEdits c.
Proof.
  cbn. split; [done|]. split; [apply length_map|]. intros i c Hc.
  match goal with |- context [map ?f (cells s)] => change (map f (cells s)) with (f <$> cells s) end.
  rewrite list_lookup_fmap, Hc. cbn. eexists. split; [reflexivity|].
  by case_bool_decide.
Qed.

(** X16: [RequestCellRun] with an empty list runs every cell: the message
    names the ids of all cells in notebook order; with a non-empty list the
    message names that list. The cells whose id is named are marked queued,
    lose their results and their error flag and keep the rest; the other
    cells stay as they were. *)
Theorem X16_RequestCellRun_marks_named_cells cellIds s :
  let r := dispatch confirm (RequestCellRun cellIds) s in
  let named := match cellIds with [] => id <$> cells s | _ => cellIds end in
  r.2 = [Send (messages.RunCell named)]
  ∧ (cellIds = [] → ∀ c, c ∈ cells s → id c ∈ named)
  ∧ length (cells r.1) = length (cells s)
  ∧ ∀ i c, cells s !! i = Some c →
      ∃ c', cells r.1 !! i = Some c'
            ∧ (id c ∉ named → c' = c)
            ∧ (id c ∈ named →
               queued c' = Some true ∧ results c' = [] ∧ error c' = Some false
               ∧ id c' = id c ∧ language c' = language c ∧ content c' = content c
               ∧ metadata c' = metadata c ∧ comments c' = comments c
               ∧ selected c' = selected c ∧ currentSelection c' = currentSelection c
               ∧ pendingEdits c' = pendingEdits c).
Proof.
  cbn zeta.
  assert (Hnamed : (if decide (length cellIds = 0%nat) then map id (cells s) else cellIds)
                   = match cellIds with [] => id <$> cells s | _ => cellIds end)
    by by destruct cellIds.
  cbn. rewrite Hnamed. split; [done|]. split.
  { intros -> c Hc. by apply list_elem_of_fmap_2. }
  split; [apply length_map|]. intros i c Hc.
  match goal with |- context [map ?f (cells s)] => change (map f (cells s)) with (f <$> cells s) end.
  rewrite list_lookup_fmap, Hc. cbn. eexists. split; [reflexivity|].
  case_bool_decide; split; done.
Qed.

Lemma findIndexFrom_first {A} (p : A → bool) pre x rest i :
  Forall (λ y, p y = false) pre → p x = true →
  findIndexFrom p (pre ++ x :: rest) i = i + Z.of_nat (length pre).
Proof.
  intros Hpre Hx. revert i. induction Hpre as [|y pre Hy _ IH]; intros i; cbn.
  - rewrite Hx. lia.
  - rewrite Hy, IH. lia.
Qed.

Lemma findIndexFrom_none {A} (p : A → bool) l i :
  Forall (λ y, p y = false) l → findIndexFrom p l i = -1.
Proof.
  intros Hl. revert i. induction Hl as [|y l Hy _ IH]; intros i; cbn; [done|].
  by rewrite Hy.
Qed.

Lemma js_index_middle {A} (pre : list A) x rest :
  js_index (pre ++ x :: rest) (Z.of_nat (length pre)) = Some x.
Proof.
  unfold js_index. rewrite decide_True by lia. rewrite Nat2Z.id.
  by apply list_lookup_middle.
Qed.

Lemma id_is_not_in (n : Z) (l : list CellState) :
  n ∉ id <$> l → Forall (λ c, id_is (Some n) c = false) l.
Proof.
  intros Hn. apply Forall_forall. intros c Hc. cbn.
  apply bool_decide_eq_false. intros Heq. apply Hn. rewrite <- Heq.
  by apply list_elem_of_fmap_2.
Qed.

(** What the [SetSelectedCell] branch returns, by the chosen id. *)
Lemma dispatch_SetSelectedCell selected relative s :
  dispatch confirm (SetSelectedCell selected relative) s
  = (with_cells
       (map (λ cell, cell_with_selected (id_is (chosenId selected relative (cells s)) cell) cell)
          (cells s))
       (with_activeCell (List.find (id_is (chosenId selected relative (cells s))) (cells s)) s),
     []).
Proof. reflexivity. Qed.

Lemma selected_by_id (chosen : option Z) (s : NotebookState) (n : Z) (a : CellState) :
  chosen = Some n → a ∈ cells s → id a = n →
  let s' := with_cells
              (map (λ cell, cell_with_selected (id_is chosen cell) cell) (cells s))
              (with_activeCell (List.find (id_is chosen) (cells s)) s) in
  id <$> activeCell s' = Some n
  ∧ ∀ i c, cells s !! i = Some c →
      selected <$> cells s' !! i = Some (Some (bool_decide (id c = n))).
Proof.
  intros -> Ha Hid. cbn. split.
  - destruct (List.find (id_is (Some n)) (cells s)) as [ac|] eqn:Hfind.
    + apply find_some in Hfind as [_ Hac]. cbn in Hac. cbn. f_equal.
      by apply bool_decide_eq_true in Hac.
    + apply list_elem_of_In in Ha. eapply find_none in Hfind; [|exact Ha].
      cbn in Hfind. by apply bool_decide_eq_false in Hfind.
  - intros i c Hc.
    match goal with |- context [map ?f (cells s)] => change (map f (cells s)) with (f <$> cells s) end.
    by rewrite list_lookup_fmap, Hc.
Qed.

(** X17: [SetSelectedCell(id, "above")] selects the cell just before the
    first cell with that id, and [SetSelectedCell(id, "below")] the cell just
    after it: the active cell has the neighbour's id, and a cell is flagged
    selected exactly when it has the neighbour's id. *)
Theorem X17_SetSelectedCell_moves_to_neighbour s pre a b post :
  cells s = pre ++ a :: b :: post →
  (id b ∉ id <$> (pre ++ [a]) →
   let r := dispatch confirm (SetSelectedCell (Some (id b)) (Some above)) s in
   id <$> activeCell r.1 = Some (id a)
   ∧ ∀ i c, cells s !! i = Some c →
       selected <$> cells r.1 !! i = Some (Some (bool_decide (id c = id a))))
  ∧ (id a ∉ id <$> pre →
     let r := dispatch confirm (SetSelectedCell (Some (id a)) (Some below)) s in
     id <$> activeCell r.1 = Some (id b)
     ∧ ∀ i c, cells s !! i = Some c →
         selected <$> cells r.1 !! i = Some (Some (bool_decide (id c = id b)))).
Proof.
  intros Hcells. split.
  - intros Hfirst. cbn zeta. rewrite dispatch_SetSelectedCell. cbn [fst].
    apply (selected_by_id _ s (id a) a); [|rewrite Hcells; set_solver|done].
    unfold chosenId, findIndex. rewrite Hcells.
    replace (pre ++ a :: b :: post) with ((pre ++ [a]) ++ b :: post)
      by by rewrite <- app_assoc.
    rewrite findIndexFrom_first; [|by apply id_is_not_in|by apply bool_decide_eq_true].
    rewrite length_app. cbn [length].
    replace (0 + Z.of_nat (length pre + 1) - 1) with (Z.of_nat (length pre)) by lia.
    rewrite <- app_assoc. cbn [app]. by rewrite js_index_middle.
  - intros Hfirst. cbn zeta. rewrite dispatch_SetSelectedCell. cbn [fst].
    apply (selected_by_id _ s (id b) b); [|rewrite Hcells; set_solver|done].
    unfold chosenId, findIndex. rewrite Hcells.
    rewrite findIndexFrom_first; [|by apply id_is_not_in|by apply bool_decide_eq_true].
    replace (pre ++ a :: b :: post) with ((pre ++ [a]) ++ b :: post)
      by by rewrite <- app_assoc.
    replace (0 + Z.of_nat (length pre) + 1) with (Z.of_nat (length (pre ++ [a])))
      by (rewrite length_app; cbn; lia).
    by rewrite js_index_middle.
Qed.

(** X18: [SetSelectedCell(selected, "below")] with a [selected] that no cell
    has as its id (an undefined one among them) selects the first cell of a
    notebook that has cells. *)
Theorem X18_SetSelectedCell_below_unknown_selects_first s sel first rest :
  cells s = first :: rest →
  (∀ c, c ∈ cells s → id_is sel c = false) →
  let r := dispatch confirm (SetSelectedCell sel (Some below)) s in
  id <$> activeCell r.1 = Some (id first)
  ∧ ∀ i c, cells s !! i = Some c →
      selected <$> cells r.1 !! i = Some (Some (bool_decide (id c = id first))).
Proof.
  intros Hcells Hunknown. cbn zeta. rewrite dispatch_SetSelectedCell. cbn [fst].
  apply (selected_by_id _ s (id first) first); [|rewrite Hcells; by left|done].
  unfold chosenId, findIndex.
  rewrite findIndexFrom_none by by apply Forall_forall.
  by rewrite Hcells.
Qed.

(** X19: after any [SetSelectedCell] every cell has a [selected] flag, and
    the flags agree with the active cell: with an active cell, which is one
    of the cells as they were before the dispatch, exactly the cells with its
    id are flagged; with none, no cell is flagged. *)
Theorem X19_SetSelectedCell_flags_agree_with_active selected relative s :
  let r := dispatch confirm (SetSelectedCell selected relative) s in
  r.2 = []
  ∧ match activeCell r.1 with
    | Some active =>
        active ∈ cells s
        ∧ ∀ i c, cells s !! i = Some c →
            Dispatcher.selected <$> cells r.1 !! i
            = Some (Some (bool_decide (id c = id active)))
    | None =>
        ∀ i c, cells s !! i = Some c →
          Dispatcher.selected <$> cells r.1 !! i = Some (Some false)
    end.
Proof.
  cbn zeta. rewrite dispatch_SetSelectedCell. cbn [fst snd]. split; [done|].
  generalize (chosenId selected relative (cells s)). intros chosen. cbn.
  destruct (List.find (id_is chosen) (cells s)) as [active|] eqn:Hfind.
  - apply find_some in Hfind as [Hin Hactive]. split; [by apply list_elem_of_In|].
    intros i c Hc.
    match goal with |- context [map ?f (cells s)] => change (map f (cells s)) with (f <$> cells s) end.
    rewrite list_lookup_fmap, Hc. cbn. do 2 f_equal.
    destruct chosen as [n|]; [|done]. cbn in *.
    apply bool_decide_eq_true in Hactive. by rewrite Hactive.
  - intros i c Hc.
    match goal with |- context [map ?f (cells s)] => change (map f (cells s)) with (f <$> cells s) end.
    rewrite list_lookup_fmap, Hc. cbn. do 2 f_equal.
    eapply find_none in Hfind; [exact Hfind|].
    apply list_elem_of_In. by eapply list_elem_of_lookup_2.
Qed.
End DispatcherCells.

(** * The helper methods of the notebook dispatcher *)

Section HelpersFacts.
Context `{DataTypes}.
Import Dispatcher Helpers.
Variable confirm : string → bool.

Lemma js_index_negative {A} (l : list A) i : i < 0 → js_index l i = None.
Proof. intros Hi. unfold js_index. by rewrite decide_False by lia. Qed.

Lemma insertCell_given direction a s :
  insertCell confirm direction (Some a) s
  = match js_index (cells s)
            (match direction with
             | above => findIndex (λ cell, bool_decide (id cell = anchor_id a)) (cells s) - 1
             | below => findIndex (λ cell, bool_decide (id cell = anchor_id a)) (cells s)
             end) with
    | Some maybePrev =>
        inr (dispatch confirm
               (CreateCell (anchor_language a) "" (anchor_metadata a) (id maybePrev)) s)
    | None => inl TypeError
    end.
Proof. reflexivity. Qed.

(** X20: [insertCell] throws a [TypeError], before anything is sent, on a
    notebook without cells, for an anchor whose id no cell has, and for
    inserting above an anchor that is the first cell. *)
Theorem X20_insertCell_throws direction anchor s :
  (cells s = [] → insertCell confirm direction anchor s = inl TypeError)
  ∧ (∀ a, anchor = Some a → (∀ c, c ∈ cells s → id c ≠ anchor_id a) →
          insertCell confirm direction anchor s = inl TypeError)
  ∧ (∀ a first rest,
       anchor = Some a → cells s = first :: rest → anchor_id a = id first →
       insertCell confirm above anchor s = inl TypeError).
Proof.
  split; [|split].
  - intros Hnil. unfold insertCell. rewrite Hnil.
    destruct anchor as [a|]; [by destruct direction|].
    destruct (activeCell s) as [c|]; by destruct direction.
  - intros a -> Hunknown. rewrite insertCell_given. unfold findIndex.
    rewrite findIndexFrom_none.
    + by destruct direction.
    + apply Forall_forall. intros c Hc. apply bool_decide_eq_false. by apply Hunknown.
  - intros a first rest -> Hcells Hfirst. rewrite insertCell_given, Hcells.
    unfold findIndex. cbn. by rewrite bool_decide_eq_true_2.
Qed.

(** X21: with an anchor that some cell has as its id, [insertCell] sends one
    [InsertCell]: a new empty cell with the anchor's language and metadata,
    the next free id and the next local version, to go after the first cell
    with the anchor's id ("below") or after the cell before that one
    ("above"). The local cells stay as they were. *)
Theorem X21_insertCell_sends_InsertCell s a pre c post :
  cells s = pre ++ c :: post →
  id c = anchor_id a →
  anchor_id a ∉ id <$> pre →
  let sends prev :=
    [Send (messages.InsertCell (globalVersion s) (localVersion s + 1)
             (NotebookCell.mk (maxId (cells s) + 1) (anchor_language a) ""
                [] (anchor_metadata a) ∅) prev)] in
  (∃ r, insertCell confirm below (Some a) s = inr r
        ∧ r.2 = sends (id c) ∧ cells r.1 = cells s)
  ∧ (∀ pre' p, pre = pre' ++ [p] →
       ∃ r, insertCell confirm above (Some a) s = inr r
            ∧ r.2 = sends (id p) ∧ cells r.1 = cells s).
Proof.
  intros Hcells Hid Hpre sends.
  assert (Hidx : findIndex (λ cell, bool_decide (id cell = anchor_id a)) (cells s)
                 = Z.of_nat (length pre)).
  { unfold findIndex. rewrite Hcells, findIndexFrom_first.
    - lia.
    - apply Forall_forall. intros y Hy. apply bool_decide_eq_false. intros Heq.
      apply Hpre. rewrite <- Heq. by apply list_elem_of_fmap_2.
    - by apply bool_decide_eq_true. }
  split.
  - assert (Hprev : js_index (cells s) (Z.of_nat (length pre)) = Some c)
      by (rewrite Hcells; apply js_index_middle).
    rewrite insertCell_given, Hidx, Hprev.
    eexists. split; [reflexivity|]. by split.
  - intros pre' p ->.
    assert (Hprev : js_index (cells s) (Z.of_nat (length (pre' ++ [p])) - 1) = Some p).
    { rewrite Hcells, length_app. cbn [length].
      replace (Z.of_nat (length pre' + 1) - 1) with (Z.of_nat (length pre')) by lia.
      rewrite <- app_assoc. cbn [app]. apply js_index_middle. }
    rewrite insertCell_given, Hidx, Hprev.
    eexists. split; [reflexivity|]. by split.
Qed.

Lemma dispatch_keeps_cell_ids a s :
  map id (cells (dispatch confirm a s).1) = map id (cells s).
Proof.
  destruct a; cbn; try done;
    try (apply map_id_preserved; intros c; try case_bool_decide; done).
  destruct command; cbn; [done|]. by destruct (confirm _).
Qed.

(** X22: [runToActiveCell] sends one [RunCell] naming the cells before the
    first cell with the active cell's id, in order, or nothing when there is
    none; and, by its [splice], it takes these cells out of the cells of the
    notebook state. Without an active cell it does nothing. *)
Theorem X22_runToActiveCell_runs_and_removes_cells_before s :
  (activeCell s = None → runToActiveCell confirm s = (s, []))
  ∧ (∀ active pre c post,
       activeCell s = Some active →
       cells s = pre ++ c :: post →
       id c = id active →
       id active ∉ id <$> pre →
       let r := runToActiveCell confirm s in
       r.2 = match pre with
             | [] => []
             | _ => [Send (messages.RunCell (id <$> pre))]
             end
       ∧ map id (cells r.1) = map id (c :: post)).
Proof.
  split.
  - intros Hnone. unfold runToActiveCell. rewrite Hnone. cbn.
    unfold findIndex. rewrite findIndexFrom_none by by apply Forall_forall.
    cbn. destruct s; cbn in *. by subst.
  - intros active pre c post Hactive Hcells Hid Hpre. unfold runToActiveCell.
    rewrite Hactive. cbn [fmap option_fmap option_map].
    assert (Hidx : findIndex (id_is (Some (id active))) (cells s) = Z.of_nat (length pre)).
    { unfold findIndex. rewrite Hcells, findIndexFrom_first.
      - lia.
      - by apply id_is_not_in.
      - cbn. by apply bool_decide_eq_true. }
    cbn zeta. rewrite Hidx, Nat2Z.id, Hcells, take_app_length, drop_app_length.
    rewrite length_fmap. destruct pre as [|p pre]; cbn [length].
    + rewrite decide_False by lia. done.
    + rewrite decide_True by lia. split; [done|].
      by rewrite dispatch_keeps_cell_ids.
Qed.
End HelpersFacts.

(** * The server message dispatcher *)

Section ServerDispatcherFacts.
Context `{DataTypes}.
Variable Loaded : Type.
Variable truthy : Loaded → bool.
Variable loadNotebook : string → Loaded.

Lemma server_dispatch_entries a s k :
  let s' := (ServerDispatcher.dispatch Loaded truthy loadNotebook a s).1 in
  (is_Some (ServerDispatcher.notebooks Loaded s !! k) →
   is_Some (ServerDispatcher.notebooks Loaded s' !! k))
  ∧ (∀ v, ServerDispatcher.notebooks Loaded s !! k = Some v → truthy v = true →
          ServerDispatcher.notebooks Loaded s' !! k = Some v).
Proof.
  destruct a; cbn; try done.
  destruct (ServerDispatcher.notebooks Loaded s !! path) as [v0|] eqn:Hpath; cbn.
  - destruct (truthy v0) eqn:Hv0; cbn; [done|]. split.
    + intros Hk. apply lookup_insert_is_Some'. by right.
    + intros v Hv Htruthy. rewrite lookup_insert_ne; [done|]. congruence.
  - split.
    + intros Hk. apply lookup_insert_is_Some'. by right.
    + intros v Hv Htruthy. rewrite lookup_insert_ne; [done|]. congruence.
Qed.

(** X23: over any run of dispatches the server dispatcher never drops a
    notebook from its table, and a notebook whose entry is truthy keeps its
    entry: it is not loaded again. *)
Theorem X23_server_dispatch_keeps_notebooks actions s k :
  let s' := (ServerDispatcher.dispatchAll Loaded truthy loadNotebook actions s).1 in
  (is_Some (ServerDispatcher.notebooks Loaded s !! k) →
   is_Some (ServerDispatcher.notebooks Loaded s' !! k))
  ∧ (∀ v, ServerDispatcher.notebooks Loaded s !! k = Some v → truthy v = true →
          ServerDispatcher.notebooks Loaded s' !! k = Some v).
Proof.
  revert s. induction actions as [|a actions IH]; intros s; [done|].
  cbn. destruct (server_dispatch_entries a s k) as [Hkeep Hsame].
  destruct (IH (ServerDispatcher.dispatch Loaded truthy loadNotebook a s).1)
    as [IHkeep IHsame].
  split.
  - intros Hk. by apply IHkeep, Hkeep.
  - intros v Hv Htruthy. by apply IHsame; [apply Hsame|].
Qed.


(** X25: a run of dispatches with no [LoadNotebook] and no
    [SetSelectedNotebook] in it leaves the server state as it was, whatever
    it sends. *)
Theorem X25_server_state_changes_only_by_load_and_select actions s :
  Forall (λ a, match a with
               | Dispatcher.LoadNotebook _ | Dispatcher.SetSelectedNotebook _ => False
               | _ => True
               end) actions →
  (ServerDispatcher.dispatchAll Loaded truthy loadNotebook actions s).1 = s.
Proof.
  intros Hall. induction Hall as [|a actions Ha _ IH]; [done|].
  cbn.
  assert (Hstep : (ServerDispatcher.dispatch Loaded truthy loadNotebook a s).1 = s)
    by (destruct a; done).
  by rewrite Hstep.
Qed.
End ServerDispatcherFacts.

(** * Main: the recent notebooks *)

Section MainFacts.
Import Stdlib.Strings.Ascii.

Lemma filter_fixed {A} (f : A → bool) (l : list A) :
  Forall (λ x, f x = true) l → List.filter f l = l.
Proof.
  induction 1 as [|x l Hx _ IH]; cbn; [done|]. by rewrite Hx, IH.
Qed.

Lemma updateRecents_shape p recents :
  ∃ first rest,
    Main.updateRecents p recents = first :: rest
    ∧ Main.path first = p
    ∧ Forall (λ r, negb (bool_decide (Main.path r = p)) = true) rest
    ∧ rest = List.filter (λ r, negb (bool_decide (Main.path r = p))) recents
    ∧ match List.find (λ r, bool_decide (Main.path r = p)) recents with
      | Some kept => first = kept
      | None => first = Main.mkRecent p (Main.lastSegment p)
      end.
Proof.
  unfold Main.updateRecents.
  destruct (List.find _ recents) as [kept|] eqn:Hfind.
  - apply find_some in Hfind as [_ Hkept]. apply bool_decide_eq_true in Hkept.
    eexists _, _. split; [reflexivity|]. split; [done|]. split; [|done].
    apply Forall_forall. intros r Hr. apply list_elem_of_In, filter_In in Hr. tauto.
  - exists (Main.mkRecent p (Main.lastSegment p)), recents.
    assert (Hall : Forall (λ r, negb (bool_decide (Main.path r = p)) = true) recents).
    { apply Forall_forall. intros r Hr. apply list_elem_of_In in Hr.
      by rewrite (find_none _ _ Hfind r Hr). }
    split; [done|]. split; [done|]. split; [done|]. split; [|done].
    symmetry. by apply filter_fixed.
Qed.

(** X26: the update of the recent notebooks puts the entry of the path
    first: the first entry that had the path, as it was, or a new one named
    by the last piece of the path. No other entry has the path, and the
    entries of other paths follow in the order they had. *)
Theorem X26_updateRecents_moves_path_to_front p recents :
  ∃ first rest,
    Main.updateRecents p recents = first :: rest
    ∧ Main.path first = p
    ∧ (∀ r, r ∈ rest → Main.path r ≠ p)
    ∧ rest = List.filter (λ r, negb (bool_decide (Main.path r = p))) recents
    ∧ (length rest ≤ length recents)%nat
    ∧ match List.find (λ r, bool_decide (Main.path r = p)) recents with
      | Some kept => first = kept
      | None => first = Main.mkRecent p (Main.lastSegment p)
      end.
Proof.
  destruct (updateRecents_shape p recents)
    as (first & rest & Hrun & Hfirst & Hrest & Hfilter & Hkept).
  exists first, rest. split; [done|]. split; [done|]. split.
  { intros r Hr. rewrite Forall_forall in Hrest. specialize (Hrest r Hr).
    apply negb_true_iff in Hrest. by apply bool_decide_eq_false in Hrest. }
  split; [done|]. split; [|done]. rewrite Hfilter. apply filter_length_le.
Qed.

(** X27: updating the recent notebooks twice for the same path gives what
    updating once gives. *)
Theorem X27_updateRecents_idempotent p recents :
  Main.updateRecents p (Main.updateRecents p recents) = Main.updateRecents p recents.
Proof.
  destruct (updateRecents_shape p recents)
    as (first & rest & -> & Hfirst & Hrest & _ & _).
  unfold Main.updateRecents. cbn. rewrite Hfirst, bool_decide_eq_true_2 by done. cbn.
  by rewrite filter_fixed.
Qed.

Lemma split_slash_nonempty s : Main.split_slash s ≠ [].
Proof.
  destruct s as [|c s]; cbn; [done|]. destruct (Ascii.eqb c "/"); [done|].
  by destruct (Main.split_slash s).
Qed.

Lemma append_assoc (a b c : string) : (a +:+ b) +:+ c = a +:+ b +:+ c.
Proof.
  induction a as [|x a IH]; [done|].
  change (String x ((a +:+ b) +:+ c) = String x (a +:+ b +:+ c)). by rewrite IH.
Qed.

Lemma split_slash_joins_back s :
  String.concat "/" (Main.split_slash s) = s
  ∧ Forall (λ piece, ¬ In "/"%char (String.list_ascii_of_string piece)) (Main.split_slash s).
Proof.
  induction s as [|c s [IHjoin IHpieces]].
  - split; [done|]. apply Forall_singleton. by intros [].
  - cbn [Main.split_slash]. destruct (Ascii.eqb_spec c "/") as [->|Hc].
    + split.
      * destruct (Main.split_slash s) as [|seg rest] eqn:Hs;
          [by apply split_slash_nonempty in Hs|].
        rewrite <- IHjoin. reflexivity.
      * apply Forall_cons. split; [by intros []|done].
    + destruct (Main.split_slash s) as [|seg rest] eqn:Hs;
        [by apply split_slash_nonempty in Hs|].
      apply Forall_cons in IHpieces as [Hseg Hrest]. split.
      * rewrite <- IHjoin. destruct rest; reflexivity.
      * apply Forall_cons. split; [|done]. cbn.
        intros [Heq|Hin]; [by subst | by apply Hseg].
Qed.

(** X28: the pieces [split] cuts a string into at its slashes hold no slash,
    and joined again with slashes they give the string back. *)
Theorem X28_split_slash_round_trip s :
  String.concat "/" (Main.split_slash s) = s
  ∧ Forall (λ piece, ¬ In "/"%char (String.list_ascii_of_string piece)) (Main.split_slash s).
Proof. apply split_slash_joins_back. Qed.

Lemma concat_snoc sep (init : list string) x :
  init ≠ [] → String.concat sep (init ++ [x]) = String.concat sep init +:+ sep +:+ x.
Proof.
  induction init as [|y init IH]; [done|]. intros _. destruct init as [|z init].
  - done.
  - change (String.concat sep ((y :: z :: init) ++ [x]))
      with (y +:+ sep +:+ String.concat sep ((z :: init) ++ [x])).
    rewrite IH by done.
    change (String.concat sep (y :: z :: init))
      with (y +:+ sep +:+ String.concat sep (z :: init)).
    by rewrite !append_assoc.
Qed.

(** X29: the name given to a new recent notebook, the last piece of its
    path, holds no slash, and the path is this name after a part that is
    empty or ends with a slash. *)
Theorem X29_lastSegment_is_the_part_after_the_last_slash p :
  ¬ In "/"%char (String.list_ascii_of_string (Main.lastSegment p))
  ∧ ∃ before,
      p = before +:+ Main.lastSegment p
      ∧ (before = "" ∨ ∃ dir, before = dir +:+ "/").
Proof.
  destruct (split_slash_joins_back p) as [Hjoin Hpieces].
  unfold Main.lastSegment.
  destruct (last (Main.split_slash p)) as [name|] eqn:Hlast.
  - apply last_Some in Hlast as [init Hinit]. rewrite Hinit in *. cbn. split.
    + apply Forall_app in Hpieces as [_ Hname]. rewrite Forall_singleton in Hname.
      exact Hname.
    + destruct init as [|y init].
      * exists "". split; [by rewrite <- Hjoin | by left].
      * exists (String.concat "/" (y :: init) +:+ "/"). split; [|right; by eexists].
        rewrite <- Hjoin at 1. rewrite concat_snoc by done. by rewrite append_assoc.
  - apply last_None in Hlast. by destruct (split_slash_nonempty p).
Qed.
End MainFacts.

(** * The added properties at concrete inputs *)

Lemma X2_addBackup_is_latest_witness :
  Backups.latestBackup (Examples.onDay 0)
    (Backups.addBackup (Examples.onDay 0) (Examples.backupAt 5) (Backups.new "nb"))
  = Some (Examples.backupAt 5).
Proof.
  apply (X2_addBackup_is_latest (Examples.onDay 0) (Examples.onDay 0)
           (Examples.backupAt 5) (Backups.new "nb") eq_refl).
Defined.


Lemma X4_latestBackup_choice_witness :
  let b := Examples.addOnDays [0; 1] (Backups.new "nb") in
  ∃ day l,
    Backups.backups b !! day = Some l
    ∧ last l = Some (Examples.backupAt (1 * Examples.msPerDay))
    ∧ (day = todayTs (Examples.onDay 2)
       ∨ (Backups.backups b !! todayTs (Examples.onDay 2) = None
          ∧ ∀ d', is_Some (Backups.backups b !! d') → d' ≤ day)).
Proof.
  intros b.
  apply (X4_latestBackup_choice (Examples.onDay 2) b
           (Examples.backupAt (1 * Examples.msPerDay))).
  vm_compute. reflexivity.
Defined.

Lemma X8_other_paths_untouched_witness :
  let w := (ClientBackup.addNb (Examples.onDay 0) "other" [Examples.oneCell] None
              Examples.emptyWorld).2 in
  idb (ClientBackup.addNb (Examples.onDay 0) "nb" [Examples.oneCell] None w).2 !! "other"
  = idb w !! "other"
  ∧ idb (ClientBackup.updateNb (Examples.onDay 0) "nb" (messages.DeleteCell 0 1 0) w).2
      !! "other"
    = idb w !! "other".
Proof.
  intros w.
  apply (X8_other_paths_untouched (Examples.onDay 0) "nb" "other" [Examples.oneCell] None
           (messages.DeleteCell 0 1 0) w).
  discriminate.
Defined.

Lemma X11_reachable_store_invariant_witness :
  let w := (ClientBackup.addNb (Examples.onDay 0) "nb" [Examples.oneCell] None
              Examples.emptyWorld).2 in
  ∃ s, idb w !! "nb" = Some s
       ∧ Stored.bpath s = "nb"
       ∧ (1 ≤ size (Stored.backups s) ≤ S BACKUPS_PER_NOTEBOOK)%nat.
Proof.
  intros w.
  assert (Hreach : reachable w) by (apply reachable_addNb, reachable_empty).
  destruct (idb w !! "nb") as [s|] eqn:Hs; [|vm_compute in Hs; discriminate Hs].
  exists s. split; [reflexivity|].
  destruct (X11_reachable_store_invariant w "nb" s Hreach Hs) as (Hpath & Hsize & _).
  split; [exact Hpath | exact Hsize].
Defined.

Lemma X17_SetSelectedCell_moves_to_neighbour_witness :
  let up := Dispatcher.dispatch Examples.alwaysConfirm
              (Dispatcher.SetSelectedCell (Some 1) (Some Dispatcher.above))
              Examples.state01 in
  let down := Dispatcher.dispatch Examples.alwaysConfirm
                (Dispatcher.SetSelectedCell (Some 0) (Some Dispatcher.below))
                Examples.state01 in
  Dispatcher.id <$> Dispatcher.activeCell up.1 = Some 0
  ∧ Dispatcher.id <$> Dispatcher.activeCell down.1 = Some 1.
Proof.
  destruct (X17_SetSelectedCell_moves_to_neighbour Examples.alwaysConfirm Examples.state01
              [] (Examples.cellWithId 0) (Examples.cellWithId 1) [] eq_refl)
    as [Habove Hbelow].
  split.
  - apply Habove. vm_compute. intros Hin. inversion Hin as [|? ? ? Hin']; subst.
    inversion Hin'.
  - apply Hbelow. vm_compute. intros Hin. inversion Hin.
Defined.

Lemma X18_SetSelectedCell_below_unknown_selects_first_witness :
  let r := Dispatcher.dispatch Examples.alwaysConfirm
             (Dispatcher.SetSelectedCell None (Some Dispatcher.below)) Examples.state01 in
  Dispatcher.id <$> Dispatcher.activeCell r.1 = Some 0.
Proof.
  apply (X18_SetSelectedCell_below_unknown_selects_first Examples.alwaysConfirm
           Examples.state01 None (Examples.cellWithId 0) [Examples.cellWithId 1] eq_refl).
  intros c _. reflexivity.
Defined.

Lemma X21_insertCell_sends_InsertCell_witness :
  ∃ r, Helpers.insertCell Examples.alwaysConfirm Dispatcher.below
         (Some (@Helpers.mkAnchor plainTypes 0 "scala" "meta")) Examples.state01 = inr r
       ∧ r.2 = [Dispatcher.Send
                  (messages.InsertCell 0 1 (NotebookCell.mk 2 "scala" "" [] "meta" ∅) 0)]
       ∧ Dispatcher.cells r.1 = Dispatcher.cells Examples.state01.
Proof.
  apply (X21_insertCell_sends_InsertCell Examples.alwaysConfirm Examples.state01
           (@Helpers.mkAnchor plainTypes 0 "scala" "meta")
           [] (Examples.cellWithId 0) [Examples.cellWithId 1] eq_refl eq_refl).
  vm_compute. intros Hin. inversion Hin.
Defined.

Lemma X25_server_state_changes_only_by_load_and_select_witness :
  let s := ServerDispatcher.mkServerState bool {[ "nb" := true ]} (Some "nb") in
  (ServerDispatcher.dispatchAll bool (λ b, b) (λ _, true)
     [Dispatcher.RequestNotebooksList; Dispatcher.DeleteNotebook "nb"] s).1 = s.
Proof.
  apply (X25_server_state_changes_only_by_load_and_select bool (λ b, b) (λ _, true)).
  repeat constructor.
Defined.
